(** * drawingapp: geometry, history and region detection

    A shallow embedding of the drawing board's core (element-utils.js,
    App.js, handleMouse.js, DrawingBoard.js) together with the properties
    its design document states about it.

    Conventions of the embedding:
    - canvas and pixel coordinates are integers ([Z]); the zoom scale, whose
      bounds are 0.1 and 2, is a rational ([Q]);
    - a value produced by [Math.sqrt] is kept exact as the integer under the
      root ([Surd.surd]); its meaning as a real number is [Surd.surd_val],
      and every comparison the code makes on such values is decided on the
      integers and proved against the real numbers;
    - React state is threaded explicitly: a handler is a function of the
      state its render closed over, and each call of a handler sees the
      state the previous one left;
    - a JavaScript call that may throw returns an [Element.outcome]; a loop
      whose number of iterations is not fixed by its input runs on fuel and
      returns [None] when the fuel does not suffice, which is proved not to
      happen. *)

From Stdlib Require Import ZArith QArith Qminmax Reals Lra Lia Psatz String.
From stdpp Require Import base list gmap sets strings.

#[local] Open Scope string_scope.
#[local] Open Scope list_scope.
#[local] Open Scope Z_scope.

(** Case analysis on every integer comparison in the goal. *)
Ltac cmp_cases :=
  repeat (match goal with
          | |- context [Z.ltb ?a ?b] => destruct (Z.ltb_spec a b)
          | |- context [Z.gtb ?a ?b] =>
              rewrite (Z.gtb_ltb a b); destruct (Z.ltb_spec b a)
          | |- context [Z.leb ?a ?b] => destruct (Z.leb_spec a b)
          | |- context [Z.eqb ?a ?b] => destruct (Z.eqb_spec a b)
          end; simpl in *).

(** ** History store ([useHistory], App.js) *)

Module History.
Section Store.

(** Snapshots are arbitrary JavaScript values; reading an array out of
    range gives [undefined], which is one of them. *)
Context {T : Type} (undefined : T).

Record state := State { index : nat; history : list T }.

(** [useHistory(initialState)]: cursor 0 over a one-snapshot history. *)
Definition useHistory (initialState : T) : state :=
  State 0 [initialState].

(** [history[index]]. *)
Definition current (h : state) : T :=
  default undefined (history h !! index h).

(** [arr[i] = x]: in range the slot is replaced; past the end JavaScript
    extends the array, the skipped slots reading as [undefined]. *)
Definition array_set (arr : list T) (i : nat) (x : T) : list T :=
  if decide (i < length arr)%nat then <[i := x]> arr
  else arr ++ replicate (i - length arr) undefined ++ [x].

(** The first argument of [setState]: a value, or a function of the
    current snapshot. *)
Inductive action :=
| Value (s : T)
| Updater (f : T -> T).

Definition setState (a : action) (overwrite : bool) (h : state) : state :=
  let newState :=
    match a with
    | Updater f => f (current h)
    | Value s => s
    end in
  if overwrite then
    let historyCopy := array_set (history h) (index h) newState in
    State (index h) historyCopy
  else
    let updatedState := take (index h + 1) (history h) in
    State (index h + 1) (updatedState ++ [newState]).

Definition commit (s : T) (overwrite : bool) : state -> state :=
  setState (Value s) overwrite.

Definition undo (h : state) : state :=
  if decide (0 < index h)%nat then State (index h - 1) (history h) else h.

Definition redo (h : state) : state :=
  if decide (index h < length (history h) - 1)%nat
  then State (index h + 1) (history h) else h.

(** The cursor points at a snapshot. *)
Definition cursor_ok (h : state) : Prop :=
  (index h < length (history h))%nat.

(** The calls a component can make on the store. *)
Inductive op :=
| SetState (a : action) (overwrite : bool)
| Undo
| Redo.

Definition run_op (o : op) : state -> state :=
  match o with
  | SetState a ow => setState a ow
  | Undo => undo
  | Redo => redo
  end.

Definition run (ops : list op) (h : state) : state :=
  foldl (fun h o => run_op o h) h ops.

(** States reachable from [useHistory init]. *)
Definition reachable (init : T) (h : state) : Prop :=
  exists ops, h = run ops (useHistory init).

Lemma cursor_ok_useHistory init : cursor_ok (useHistory init).
Proof. unfold cursor_ok; simpl; lia. Qed.

Lemma array_set_in_range arr i x :
  (i < length arr)%nat -> array_set arr i x = <[i := x]> arr.
Proof. intros Hi; unfold array_set; case_decide; [done | lia]. Qed.

Lemma cursor_ok_run_op o h : cursor_ok h -> cursor_ok (run_op o h).
Proof.
  unfold cursor_ok; destruct o as [a [] | |]; simpl; intros Hh.
  - rewrite array_set_in_range by done. by rewrite length_insert.
  - rewrite length_app, length_take; simpl; lia.
  - unfold undo; case_decide; simpl; lia.
  - unfold redo; case_decide; simpl; lia.
Qed.

Lemma cursor_ok_run ops : forall h, cursor_ok h -> cursor_ok (run ops h).
Proof.
  induction ops as [| o ops IH]; intros h Hh; [done |].
  apply IH, cursor_ok_run_op, Hh.
Qed.

Lemma cursor_ok_reachable init h : reachable init h -> cursor_ok h.
Proof. intros [ops ->]. apply cursor_ok_run, cursor_ok_useHistory. Qed.

Lemma current_setState a overwrite h :
  cursor_ok h ->
  current (setState a overwrite h)
  = match a with Value s => s | Updater f => f (current h) end.
Proof.
  unfold cursor_ok; intros Hh. unfold current at 1.
  destruct overwrite; simpl.
  - rewrite array_set_in_range by done.
    by rewrite list_lookup_insert_eq.
  - rewrite lookup_app_r by (rewrite length_take; lia).
    rewrite length_take.
    by replace (index h + 1 - (index h + 1) `min` length (history h))%nat
      with 0%nat by lia.
Qed.

Lemma commit_overwrite_length s h :
  cursor_ok h -> length (history (commit s true h)) = length (history h).
Proof.
  intros Hh; simpl. rewrite array_set_in_range by done. apply length_insert.
Qed.

Lemma overwrites_keep_length xs : forall h,
  cursor_ok h ->
  length (history (run (map (fun x => SetState (Value x) true) xs) h))
  = length (history h).
Proof.
  induction xs as [| x xs IH]; intros h Hh; [done |].
  change (run (map _ (x :: xs)) h)
    with (run (map (fun x => SetState (Value x) true) xs) (commit x true h)).
  rewrite IH by (apply (cursor_ok_run_op (SetState (Value x) true)), Hh).
  by apply commit_overwrite_length.
Qed.

(** C1. An overwrite commit replaces the snapshot at the cursor in place
    and keeps the history length and the cursor; a plain commit keeps the
    snapshots up to the cursor, drops those after it, appends the new
    state and moves the cursor forward by one. Hence after commit(s1),
    commit(s2), undo(), commit(s3) the current snapshot is s3 and redo()
    changes nothing, and one commit(base) followed by any number of
    overwrite commits leaves exactly two snapshots. *)
Theorem history_commit_semantics (init : T) :
  (forall h s, reachable init h ->
     history (commit s true h) = <[index h := s]> (history h) /\
     length (history (commit s true h)) = length (history h) /\
     index (commit s true h) = index h /\
     current (commit s true h) = s) /\
  (forall h s, reachable init h ->
     history (commit s false h) = take (index h + 1) (history h) ++ [s] /\
     index (commit s false h) = (index h + 1)%nat /\
     length (history (commit s false h)) = (index h + 2)%nat /\
     current (commit s false h) = s /\
     redo (commit s false h) = commit s false h) /\
  (forall s1 s2 s3,
     let h := commit s3 false (undo (commit s2 false
                (commit s1 false (useHistory init)))) in
     current h = s3 /\ redo h = h /\ history h = [init; s1; s3]) /\
  (forall base xs,
     length (history (run (map (fun x => SetState (Value x) true) xs)
                        (commit base false (useHistory init)))) = 2%nat).
Proof.
  split; [| split; [| split]].
  - intros h s Hr. apply cursor_ok_reachable in Hr.
    assert (Hset : history (commit s true h) = <[index h := s]> (history h))
      by (simpl; by rewrite array_set_in_range).
    repeat split.
    + done.
    + by apply commit_overwrite_length.
    + unfold current. rewrite Hset. simpl.
      by rewrite list_lookup_insert_eq.
  - intros h s Hr. apply cursor_ok_reachable in Hr. unfold cursor_ok in Hr.
    assert (Hlen : length (take (index h + 1) (history h)) = (index h + 1)%nat)
      by (rewrite length_take; lia).
    repeat split.
    + simpl. rewrite length_app, Hlen. simpl. lia.
    + unfold current; simpl.
      rewrite lookup_app_r by lia. by rewrite Hlen, Nat.sub_diag.
    + unfold redo. case_decide as Hlt; [| done].
      simpl in Hlt. rewrite length_app, Hlen in Hlt. simpl in Hlt. lia.
  - intros s1 s2 s3. by vm_compute.
  - intros base xs. rewrite overwrites_keep_length; [done |].
    apply (cursor_ok_run_op (SetState _ false)), cursor_ok_useHistory.
Qed.

End Store.
End History.

Lemma history_commit_semantics_witness :
  length (History.history
            (History.commit 0%nat 9%nat true
               (History.commit 0%nat 5%nat false (History.useHistory 1%nat))))
  = 2%nat.
Proof.
  destruct (History.history_commit_semantics 0%nat 1%nat) as [Hov _].
  destruct (Hov (History.commit 0%nat 5%nat false (History.useHistory 1%nat))
              9%nat) as (_ & Hlen & _).
  - exists [History.SetState (History.Value 5%nat) false]. reflexivity.
  - rewrite Hlen. reflexivity.
Defined.

(** ** Zoom ([onZoom], App.js and DrawingBoard.js) *)

Module Zoom.

Definition min_scale : Q := 1 # 10.
Definition max_scale : Q := 2 # 1.

(** [setScale(prevState => Math.min(Math.max(prevState + delta, 0.1), 2))] *)
Definition onZoom (delta prevState : Q) : Q :=
  Qmin (Qmax (prevState + delta) min_scale) max_scale.

(** [useState(1)] *)
Definition initial_scale : Q := 1 # 1.

(** The scale after a sequence of zoom steps. *)
Definition zoom_all (deltas : list Q) (scale : Q) : Q :=
  foldl (fun s d => onZoom d s) scale deltas.

Definition within_limits (s : Q) : Prop :=
  (min_scale <= s)%Q /\ (s <= max_scale)%Q.

Lemma onZoom_within_limits delta s : within_limits (onZoom delta s).
Proof.
  unfold within_limits, onZoom; split.
  - apply Q.min_glb; [apply Q.le_max_r | by vm_compute].
  - apply Q.le_min_r.
Qed.

Lemma zoom_all_within_limits deltas : forall s,
  within_limits s -> within_limits (zoom_all deltas s).
Proof.
  induction deltas as [| d ds IH]; intros s Hs; [done |].
  apply IH, onZoom_within_limits.
Qed.

(** C9. From a scale within [0.1, 2] every zoom step gives a scale within
    [0.1, 2], so every scale reached from the initial scale 1 by zoom
    steps stays within these bounds. *)
Theorem zoom_scale_bounded :
  (forall s delta, within_limits s -> within_limits (onZoom delta s)) /\
  (forall deltas, within_limits (zoom_all deltas initial_scale)).
Proof.
  split.
  - intros s delta _. apply onZoom_within_limits.
  - intros deltas. apply zoom_all_within_limits. by vm_compute.
Qed.

End Zoom.

Lemma zoom_scale_bounded_witness :
  Zoom.within_limits (19 # 10) /\ Zoom.within_limits (Zoom.onZoom (5 # 10) (19 # 10)).
Proof.
  assert (H : Zoom.within_limits (19 # 10)) by (split; by vm_compute).
  split; [exact H |].
  exact (proj1 Zoom.zoom_scale_bounded (19 # 10)%Q (5 # 10)%Q H).
Defined.

(** ** Exact square roots ([Math.sqrt]) *)

Module Surd.

(** The result of [Math.sqrt(n)] for an integer [n], kept exact. *)
Record surd := Sqrt { radicand : Z }.

(** The real number a [surd] stands for. *)
Definition surd_val (s : surd) : R := sqrt (IZR (radicand s)).

(** [m < Math.sqrt(n)] *)
Definition int_lt_sqrt (m n : Z) : bool := (m <? 0) || (m * m <? n).

(** [Math.sqrt(n) < m] *)
Definition sqrt_lt_int (n m : Z) : bool := (0 <? m) && (n <? m * m).

(** [Math.sqrt(n) <= m] *)
Definition sqrt_le_int (n m : Z) : bool := (0 <=? m) && (n <=? m * m).

(** [Math.sqrt(p) < k + Math.sqrt(q)], by squaring both sides once. *)
Definition sqrt_lt_add (p k q : Z) : bool :=
  if 0 <=? k then int_lt_sqrt (p - q - k * k) (4 * k * k * q)
  else sqrt_lt_int (4 * k * k * p) (q - p - k * k).

(** [Math.sqrt(b) + Math.sqrt(c) < Math.sqrt(a) + m] for [0 < m], by
    squaring both sides once more. *)
Definition sqrt_sum_lt (b c a m : Z) : bool :=
  sqrt_lt_add (4 * b * c) (a + m * m - b - c) (4 * m * m * a).

Lemma sqrt_IZR_sqr (k : Z) : 0 <= k -> sqrt (IZR (k * k)) = IZR k.
Proof.
  intros Hk. rewrite mult_IZR. apply sqrt_square. by apply IZR_le.
Qed.

Lemma int_lt_sqrt_spec m n :
  0 <= n -> int_lt_sqrt m n = true <-> (IZR m < sqrt (IZR n))%R.
Proof.
  intros Hn. unfold int_lt_sqrt.
  rewrite orb_true_iff, Z.ltb_lt, Z.ltb_lt.
  destruct (Z.lt_ge_cases m 0) as [Hm | Hm].
  - split; [intros _ | by left].
    apply Rlt_le_trans with 0%R; [by apply IZR_lt | apply sqrt_pos].
  - rewrite <- (sqrt_IZR_sqr m) by done. split.
    + intros [? | Hlt]; [lia |].
      apply sqrt_lt_1_alt. split; [apply IZR_le; nia | by apply IZR_lt].
    + intros Hlt. right. apply lt_IZR.
      apply sqrt_lt_0_alt, Hlt.
Qed.

Lemma sqrt_lt_int_spec n m :
  0 <= n -> sqrt_lt_int n m = true <-> (sqrt (IZR n) < IZR m)%R.
Proof.
  intros Hn. unfold sqrt_lt_int.
  rewrite andb_true_iff, Z.ltb_lt, Z.ltb_lt.
  destruct (Z.lt_ge_cases 0 m) as [Hm | Hm].
  - rewrite <- (sqrt_IZR_sqr m) by lia. split.
    + intros [_ Hlt]. apply sqrt_lt_1_alt. split; [by apply IZR_le | by apply IZR_lt].
    + intros Hlt. split; [done |]. apply lt_IZR, sqrt_lt_0_alt, Hlt.
  - split; [lia |]. intros Hlt. exfalso.
    pose proof (sqrt_pos (IZR n)). apply IZR_le in Hm. lra.
Qed.

Lemma sqrt_le_int_spec n m :
  0 <= n -> sqrt_le_int n m = true <-> (sqrt (IZR n) <= IZR m)%R.
Proof.
  intros Hn. unfold sqrt_le_int.
  rewrite andb_true_iff, Z.leb_le, Z.leb_le.
  destruct (Z.le_gt_cases 0 m) as [Hm | Hm].
  - rewrite <- (sqrt_IZR_sqr m) by lia. split.
    + intros [_ Hle]. apply sqrt_le_1_alt. by apply IZR_le.
    + intros Hle. split; [done |]. apply le_IZR.
      apply sqrt_le_0 in Hle; [done | by apply IZR_le | apply IZR_le; nia].
  - split; [lia |]. intros Hle. exfalso.
    pose proof (sqrt_pos (IZR n)). apply IZR_lt in Hm. lra.
Qed.

Lemma sqrt_scaled (k n : Z) :
  0 <= n -> sqrt (IZR (4 * k * k * n)) = (2 * Rabs (IZR k) * sqrt (IZR n))%R.
Proof.
  intros Hn.
  replace (IZR (4 * k * k * n)) with ((2 * Rabs (IZR k)) * (2 * Rabs (IZR k)) * IZR n)%R.
  - rewrite sqrt_mult_alt.
    + rewrite sqrt_square; [done |]. pose proof (Rabs_pos (IZR k)). lra.
    + pose proof (Rabs_pos (IZR k)). nra.
  - rewrite !mult_IZR.
    replace (Rabs (IZR k) * (2 * Rabs (IZR k)))%R
      with (2 * (Rabs (IZR k) * Rabs (IZR k)))%R by ring.
    destruct (Rcase_abs (IZR k)) as [Hk | Hk].
    + rewrite (Rabs_left _ Hk). ring.
    + rewrite (Rabs_right _ Hk). ring.
Qed.

Lemma sqrt_lt_add_spec p k q :
  0 <= p -> 0 <= q ->
  sqrt_lt_add p k q = true <-> (sqrt (IZR p) < IZR k + sqrt (IZR q))%R.
Proof.
  intros Hp Hq. unfold sqrt_lt_add.
  pose proof (sqrt_pos (IZR p)) as Hsp. pose proof (sqrt_pos (IZR q)) as Hsq.
  pose proof (sqrt_sqrt (IZR p) (IZR_le _ _ Hp)) as Hpp.
  pose proof (sqrt_sqrt (IZR q) (IZR_le _ _ Hq)) as Hqq.
  destruct (Z.leb_spec 0 k) as [Hk | Hk].
  - rewrite int_lt_sqrt_spec by nia.
    rewrite sqrt_scaled by done.
    rewrite Rabs_right by (apply Rle_ge; by apply IZR_le).
    rewrite !minus_IZR, mult_IZR. apply IZR_le in Hk.
    split; intros H; nra.
  - rewrite sqrt_lt_int_spec by nia.
    rewrite sqrt_scaled by done.
    rewrite Rabs_left by (by apply IZR_lt).
    rewrite !minus_IZR, mult_IZR. apply IZR_lt in Hk.
    split; intros H; nra.
Qed.

Lemma sqrt_sum_lt_spec b c a m :
  0 <= a -> 0 <= b -> 0 <= c -> 0 < m ->
  sqrt_sum_lt b c a m = true <->
  (sqrt (IZR b) + sqrt (IZR c) < sqrt (IZR a) + IZR m)%R.
Proof.
  intros Ha Hb Hc Hm. unfold sqrt_sum_lt.
  rewrite sqrt_lt_add_spec by nia.
  replace (4 * b * c) with (4 * 1 * 1 * (b * c)) by ring.
  rewrite !sqrt_scaled by nia.
  rewrite Rabs_R1, (Rabs_right (IZR m)) by (apply Rle_ge, IZR_le; lia).
  rewrite mult_IZR, sqrt_mult_alt by (by apply IZR_le).
  rewrite !minus_IZR, plus_IZR, mult_IZR.
  pose proof (sqrt_pos (IZR a)) as Hsa. pose proof (sqrt_pos (IZR b)) as Hsb.
  pose proof (sqrt_pos (IZR c)) as Hsc.
  pose proof (sqrt_sqrt (IZR a) (IZR_le _ _ Ha)) as Haa.
  pose proof (sqrt_sqrt (IZR b) (IZR_le _ _ Hb)) as Hbb.
  pose proof (sqrt_sqrt (IZR c) (IZR_le _ _ Hc)) as Hcc.
  apply IZR_lt in Hm.
  set (sa := sqrt (IZR a)) in *. set (sb := sqrt (IZR b)) in *.
  set (sc := sqrt (IZR c)) in *. set (rm := IZR m) in *.
  rewrite <- Haa, <- Hbb, <- Hcc.
  split; intros H.
  - assert ((sb + sc) * (sb + sc) < (sa + rm) * (sa + rm))%R by nra.
    nra.
  - nra.
Qed.
End Surd.

(** ** Elements, hit-testing and resizing (element-utils.js) *)

Module Element.
Import Surd.

(** A JavaScript call either returns or throws an [Error] with a
    message. *)
Inductive outcome (A : Type) :=
| Return (a : A)
| Throw (msg : string).
Arguments Return {A} a.
Arguments Throw {A} msg.

#[global] Instance outcome_ret : MRet outcome := @Return.
#[global] Instance outcome_bind : MBind outcome := fun A B k m =>
  match m with
  | Return a => k a
  | Throw msg => Throw msg
  end.

Fixpoint mapM {A B} (f : A -> outcome B) (l : list A) : outcome (list B) :=
  match l with
  | [] => Return []
  | a :: l' => b ← f a; bs ← mapM f l'; Return (b :: bs)
  end.

(** A pencil point [{x, y, isErased}]; a point pushed without the flag
    reads as not erased. *)
Record point := Point { px : Z; py : Z; isErased : bool }.

(** [{x1, y1, x2, y2}] *)
Record coords := Coords { x1 : Z; y1 : Z; x2 : Z; y2 : Z }.

(** An element object. A field that the variant does not carry (the
    corners of a pencil stroke, the points of a rectangle) holds a
    default; the rendering handle [roughElement] is left out. *)
Record element := Element {
  id : nat;
  type : string;
  box : coords;
  points : list point;
  size : option Z;
  text : string
}.

Definition not_recognised (type : string) : string :=
  "Type not recognised: " +:+ type.

Definition createElement (id : nat) (x1 y1 x2 y2 : Z) (type : string)
    (pencilSize : Z) : outcome element :=
  if ((type =? "line") || (type =? "rectangle"))%string then
    Return (Element id type (Coords x1 y1 x2 y2) [] None "")
  else if (type =? "pencil")%string then
    Return (Element id type (Coords 0 0 0 0) [Point x1 y1 false]
              (Some pencilSize) "")
  else if (type =? "text")%string then
    Return (Element id type (Coords x1 y1 x2 y2) [] None "")
  else if (type =? "capture")%string then
    Return (Element id type (Coords x1 y1 x2 y2) [] None "")
  else Throw (not_recognised type).

(** The default of the [pencilSize] parameter. *)
Definition default_pencilSize : Z := 3.

Definition nearPoint (x y x1 y1 : Z) (name : string) : option string :=
  if (Z.abs (x - x1) <? 5) && (Z.abs (y - y1) <? 5) then Some name else None.

Definition distance (a b : Z * Z) : surd :=
  Sqrt ((a.1 - b.1) ^ 2 + (a.2 - b.2) ^ 2).

(** [Math.abs(ab - (ac + bc)) < maxDistance] for the three distances of a
    triangle, where [ab] never exceeds [ac + bc]. *)
Definition offset_within (ab ac bc : surd) (maxDistance : Z) : bool :=
  (0 <? maxDistance) &&
  sqrt_sum_lt (radicand ac) (radicand bc) (radicand ab) maxDistance.

Definition onLine (x1 y1 x2 y2 x y : Z) (maxDistance : Z) : option string :=
  let a := (x1, y1) in
  let b := (x2, y2) in
  let c := (x, y) in
  if offset_within (distance a b) (distance a c) (distance b c) maxDistance
  then Some "inside" else None.

(** The default of the [maxDistance] parameter. *)
Definition default_maxDistance : Z := 1.

(** JavaScript [||] on values that are a non-empty string or [null]. *)
Definition or_else (a b : option string) : option string :=
  match a with
  | Some _ => a
  | None => b
  end.
Infix "|||" := or_else (at level 50, left associativity).

Definition contains (c : coords) (x y : Z) : bool :=
  (x1 c <=? x) && (x <=? x2 c) && (y1 c <=? y) && (y <=? y2 c).

(** [element.points.some((point, index) => ...)]: some point and its
    successor span a segment that passes within 5 of [(x, y)]. *)
Fixpoint betweenAnyPoint (x y : Z) (pts : list point) : bool :=
  match pts with
  | point :: ((nextPoint :: _) as rest) =>
      bool_decide
        (onLine (px point) (py point) (px nextPoint) (py nextPoint) x y 5
         <> None)
      || betweenAnyPoint x y rest
  | _ => false
  end.

Definition positionWithinElement (x y : Z) (el : element)
    : outcome (option string) :=
  let c := box el in
  if (type el =? "line")%string then
    let on := onLine (x1 c) (y1 c) (x2 c) (y2 c) x y default_maxDistance in
    let start := nearPoint x y (x1 c) (y1 c) "start" in
    let end_ := nearPoint x y (x2 c) (y2 c) "end" in
    Return (start ||| end_ ||| on)
  else if (type el =? "rectangle")%string then
    let topLeft := nearPoint x y (x1 c) (y1 c) "tl" in
    let topRight := nearPoint x y (x2 c) (y1 c) "tr" in
    let bottomLeft := nearPoint x y (x1 c) (y2 c) "bl" in
    let bottomRight := nearPoint x y (x2 c) (y2 c) "br" in
    let inside := if contains c x y then Some "inside" else None in
    Return (topLeft ||| topRight ||| bottomLeft ||| bottomRight ||| inside)
  else if (type el =? "pencil")%string then
    Return (if betweenAnyPoint x y (points el) then Some "inside" else None)
  else if (type el =? "text")%string then
    Return (if contains c x y then Some "inside" else None)
  else Throw (not_recognised (type el)).

(** A slot of a JavaScript array of elements: a hole left by a write past
    the end, the value [undefined] (what a hole becomes under [[...arr]]),
    or an element. *)
Inductive slot :=
| Empty
| Undefined
| Item (el : element).

(** The message standing for any [TypeError] (reading a property of
    [undefined] or [null]). *)
Definition TypeError : string := "TypeError".

(** [{...element, position}] for an element that was hit. *)
Record located := Located { hit : element; position : string }.

(** [element => ({...element, position: positionWithinElement(x, y, element)})]
    under [map]: a hole stays a hole, [undefined] cannot be destructured. *)
Definition with_position (x y : Z) (s : slot)
    : outcome (option (element * option string)) :=
  match s with
  | Empty => Return None
  | Undefined => Throw TypeError
  | Item el => p ← positionWithinElement x y el; Return (Some (el, p))
  end.

(** [.find(element => element.position !== null)]: [find] visits holes
    too, as [undefined]. *)
Fixpoint find_position (l : list (option (element * option string)))
    : outcome (option located) :=
  match l with
  | [] => Return None
  | None :: _ => Throw TypeError
  | Some (el, None) :: rest => find_position rest
  | Some (el, Some p) :: _ => Return (Some (Located el p))
  end.

(** The position of every element is computed before the first hit is
    looked for. *)
Definition getElementAtPosition (x y : Z) (elements : list slot)
    : outcome (option located) :=
  positions ← mapM (with_position x y) elements;
  find_position positions.


Definition cursorForPosition (position : string) : string :=
  if ((position =? "tl") || (position =? "br") || (position =? "start")
      || (position =? "end"))%string then "nwse-resize"
  else if ((position =? "tr") || (position =? "bl"))%string then "nesw-resize"
  else "move".

(** [null] is [None]. *)
Definition resizedCoordinates (clientX clientY : Z) (position : string)
    (coordinates : coords) : option coords :=
  let '(Coords x1 y1 x2 y2) := coordinates in
  if ((position =? "tl") || (position =? "start"))%string then
    Some (Coords clientX clientY x2 y2)
  else if (position =? "tr")%string then
    Some (Coords x1 clientY clientX y2)
  else if (position =? "bl")%string then
    Some (Coords clientX y1 x2 clientY)
  else if ((position =? "br") || (position =? "end"))%string then
    Some (Coords x1 y1 clientX clientY)
  else None.

Definition adjustmentRequired (type : string) : bool :=
  bool_decide (type ∈ ["line"; "rectangle"]).


(** *** Notions used by the statements *)



Definition hit_test_of_rectangle (x y : Z) (c : coords) : option string :=
  nearPoint x y (x1 c) (y1 c) "tl" ||| nearPoint x y (x2 c) (y1 c) "tr"
  ||| nearPoint x y (x1 c) (y2 c) "bl" ||| nearPoint x y (x2 c) (y2 c) "br"
  ||| (if contains c x y then Some "inside" else None).

(** *** The segment test against real arithmetic *)

Lemma distance_radicand_nonneg a b : 0 <= radicand (distance a b).
Proof. unfold distance; simpl. nia. Qed.

Lemma sqrt_le_of_sqr (u s : R) :
  (0 <= s)%R -> (u <= s * s)%R -> (sqrt u <= s)%R.
Proof.
  intros Hs Hu. rewrite <- (sqrt_square s Hs). by apply sqrt_le_1_alt.
Qed.

Lemma sqrt_triangle (u1 u2 v1 v2 : R) :
  (sqrt ((u1 - v1) * (u1 - v1) + (u2 - v2) * (u2 - v2))
   <= sqrt (u1 * u1 + u2 * u2) + sqrt (v1 * v1 + v2 * v2))%R.
Proof.
  assert (HU : (0 <= u1 * u1 + u2 * u2)%R) by nra.
  assert (HV : (0 <= v1 * v1 + v2 * v2)%R) by nra.
  pose proof (sqrt_pos (u1 * u1 + u2 * u2)) as HsU.
  pose proof (sqrt_pos (v1 * v1 + v2 * v2)) as HsV.
  pose proof (sqrt_sqrt _ HU) as HUU. pose proof (sqrt_sqrt _ HV) as HVV.
  set (U := sqrt (u1 * u1 + u2 * u2)) in *.
  set (V := sqrt (v1 * v1 + v2 * v2)) in *.
  apply sqrt_le_of_sqr; [lra |].
  assert (Hcs : ((u1 * v1 + u2 * v2) * (u1 * v1 + u2 * v2)
                 <= (U * V) * (U * V))%R).
  { replace ((U * V) * (U * V))%R with ((U * U) * (V * V))%R by ring.
    rewrite HUU, HVV.
    pose proof (Rle_0_sqr (u1 * v2 - u2 * v1)) as Hsq. unfold Rsqr in Hsq.
    lra. }
  assert (Hdot : (- (u1 * v1 + u2 * v2) <= U * V)%R).
  { destruct (Rle_lt_dec (- (u1 * v1 + u2 * v2)) (U * V)) as [? | Hgt]; [done |].
    assert (0 <= U * V)%R by nra. nra. }
  nra.
Qed.

(** The triangle inequality for [distance]. *)
Lemma distance_triangle a b c :
  (surd_val (distance a b)
   <= surd_val (distance a c) + surd_val (distance b c))%R.
Proof.
  destruct a as [ax ay], b as [bx by_], c as [cx cy].
  unfold surd_val, distance; simpl.
  rewrite !Z.pow_2_r, !plus_IZR, !mult_IZR, !minus_IZR.
  replace (IZR ax - IZR bx)%R
    with ((IZR ax - IZR cx) - (IZR bx - IZR cx))%R by ring.
  replace (IZR ay - IZR by_)%R
    with ((IZR ay - IZR cy) - (IZR by_ - IZR cy))%R by ring.
  apply sqrt_triangle.
Qed.

(** [onLine] answers "inside" exactly when the slack of the path through
    [(x, y)] over the straight segment is below [maxDistance]. *)
Lemma onLine_spec x1 y1 x2 y2 x y maxDistance :
  onLine x1 y1 x2 y2 x y maxDistance = Some "inside" <->
  (Rabs (surd_val (distance (x1, y1) (x2, y2))
         - (surd_val (distance (x1, y1) (x, y))
            + surd_val (distance (x2, y2) (x, y))))
   < IZR maxDistance)%R.
Proof.
  unfold onLine, offset_within.
  pose proof (distance_triangle (x1, y1) (x2, y2) (x, y)) as Htri.
  set (ab := distance (x1, y1) (x2, y2)) in *.
  set (ac := distance (x1, y1) (x, y)) in *.
  set (bc := distance (x2, y2) (x, y)) in *.
  rewrite Rabs_left1 by lra.
  destruct (Z.ltb_spec 0 maxDistance) as [Hm | Hm]; simpl.
  - pose proof (sqrt_sum_lt_spec (radicand ac) (radicand bc) (radicand ab)
                  maxDistance (distance_radicand_nonneg _ _)
                  (distance_radicand_nonneg _ _)
                  (distance_radicand_nonneg _ _) Hm) as Hspec.
    fold (surd_val ac) (surd_val bc) (surd_val ab) in Hspec.
    destruct (sqrt_sum_lt _ _ _ _).
    + split; [intros _ | done].
      assert (surd_val ac + surd_val bc < surd_val ab + IZR maxDistance)%R
        by (by apply Hspec). lra.
    + split; [done |]. intros Hlt.
      assert (false = true); [| done]. apply Hspec. lra.
  - split; [done |]. intros Hlt. apply IZR_le in Hm. lra.
Qed.

(** *** Canonical corner order *)





(** *** Resize handles *)

(** C8. The resize computation moves the corner named by the handle:
    "tl" and "start" set (x1, y1), "tr" sets (y1, x2), "bl" sets (x1, y2),
    "br" and "end" set (x2, y2), the other two coordinates staying as they
    were; any other tag gives null. *)
Theorem resize_moves_named_corner (x y : Z) (c : coords) :
  resizedCoordinates x y "tl" c = Some (Coords x y (x2 c) (y2 c)) /\
  resizedCoordinates x y "start" c = Some (Coords x y (x2 c) (y2 c)) /\
  resizedCoordinates x y "tr" c = Some (Coords (x1 c) y x (y2 c)) /\
  resizedCoordinates x y "bl" c = Some (Coords x (y1 c) (x2 c) y) /\
  resizedCoordinates x y "br" c = Some (Coords (x1 c) (y1 c) x y) /\
  resizedCoordinates x y "end" c = Some (Coords (x1 c) (y1 c) x y) /\
  (forall position,
     position ∉ ["tl"; "start"; "tr"; "bl"; "br"; "end"] ->
     resizedCoordinates x y position c = None).
Proof.
  destruct c as [a b c d]; repeat split; try done.
  intros position Hp. unfold resizedCoordinates.
  repeat match goal with
         | |- context [String.eqb position ?t] =>
             destruct (String.eqb_spec position t) as [-> | _];
             [exfalso; apply Hp; set_solver |]
         end.
  done.
Qed.

(** The resize branch of [handleMouseMove] destructures the result without
    testing it for null; the handle it passes is a hit position other than
    "inside", and for each of those the result is not null. *)
Lemma nearPoint_name x y a b name p :
  nearPoint x y a b name = Some p -> p = name.
Proof. unfold nearPoint. destruct (_ && _); by intros [= <-]. Qed.

Lemma positionWithinElement_handles x y el p :
  positionWithinElement x y el = Return (Some p) ->
  p ∈ ["start"; "end"; "tl"; "tr"; "bl"; "br"; "inside"].
Proof.
  unfold positionWithinElement, onLine.
  repeat match goal with
         | |- context [String.eqb (type el) ?t] =>
             destruct (String.eqb (type el) t)
         end; [| | | | done]; intros [= H]; revert H;
    repeat match goal with
           | |- context [nearPoint ?a ?b ?c ?d ?n] =>
               let H := fresh in
               destruct (nearPoint a b c d n) eqn:H;
               [apply nearPoint_name in H; subst |]
           | |- context [if ?t then _ else _] => destruct t
           end; simpl; intros [= <-] || intros [=]; set_solver.
Qed.

Lemma resize_after_hit x y el p clientX clientY c :
  positionWithinElement x y el = Return (Some p) -> p <> "inside" ->
  is_Some (resizedCoordinates clientX clientY p c).
Proof.
  intros Hp Hne. apply positionWithinElement_handles in Hp.
  destruct c as [a b c d].
  repeat (apply elem_of_cons in Hp as [-> | Hp];
          [first [eexists; reflexivity | by destruct Hne] |]).
  by apply elem_of_nil in Hp.
Qed.

(** *** Hit-testing a capture element *)

Lemma positionWithin_rectangle x y el :
  type el = "rectangle" ->
  positionWithinElement x y el = Return (hit_test_of_rectangle x y (box el)).
Proof. intros Ht. unfold positionWithinElement. by rewrite Ht. Qed.

Lemma positionWithin_capture x y el :
  type el = "capture" ->
  positionWithinElement x y el = Throw "Type not recognised: capture".
Proof. intros Ht. unfold positionWithinElement. by rewrite Ht. Qed.

(** C6 fails on the code. The capture element that [createElement] builds
    is not hit-tested like the rectangle with the same corners: the
    hit-test throws on its type tag, and so does the lookup over any
    collection that holds it. *)
Theorem capture_hit_test_throws :
  createElement 1 0 0 10 10 "capture" default_pencilSize
  = Return (Element 1 "capture" (Coords 0 0 10 10) [] None "") /\
  positionWithinElement 5 5 (Element 1 "capture" (Coords 0 0 10 10) [] None "")
  = Throw "Type not recognised: capture" /\
  positionWithinElement 5 5 (Element 1 "rectangle" (Coords 0 0 10 10) [] None "")
  = Return (Some "inside") /\
  getElementAtPosition 5 5
    [Item (Element 0 "rectangle" (Coords 0 0 10 10) [] None "");
     Item (Element 1 "capture" (Coords 0 0 10 10) [] None "")]
  = Throw "Type not recognised: capture".
Proof. by vm_compute. Qed.

End Element.


Lemma resize_moves_named_corner_witness :
  Element.resizedCoordinates 3 4 "inside" (Element.Coords 0 0 10 10) = None.
Proof.
  apply (Element.resize_moves_named_corner 3 4 (Element.Coords 0 0 10 10)).
  intros Hin. repeat (apply elem_of_cons in Hin as [Heq | Hin]; [discriminate |]).
  by apply elem_of_nil in Hin.
Defined.

(** ** Pointer handling ([createMouseHandlers], handleMouse.js) *)

Module Board.
Import Element.

(** [[...arr]]: the copy is dense, a hole becomes [undefined]. *)
Definition spread (arr : list slot) : list slot :=
  map (fun s => match s with Empty => Undefined | _ => s end) arr.

(** [arr[i] = x] on an array of elements: past the end the array grows and
    the skipped slots are holes. *)
Definition assign (arr : list slot) (i : nat) (x : slot) : list slot :=
  History.array_set Empty arr i x.

(** [arr.filter(el => el.id !== target)]: [filter] skips holes and reads
    [.id] of every other slot. *)
Fixpoint filter_other_ids (target : nat) (arr : list slot)
    : outcome (list slot) :=
  match arr with
  | [] => Return []
  | Empty :: rest => filter_other_ids target rest
  | Undefined :: _ => Throw TypeError
  | Item el :: rest =>
      kept ← filter_other_ids target rest;
      Return (if bool_decide (id el <> target) then Item el :: kept else kept)
  end.

(** The selected element: the element (with its hit position when it came
    from a lookup) and the drag offsets. *)
Record selected := Selected {
  target : element;
  handle : option string;
  offsetX : Z;
  offsetY : Z;
  xOffsets : list Z;
  yOffsets : list Z
}.

(** A pointer event, its coordinates already mapped to the document by
    [getMouseCoordinates]. *)
Record mouse_event := MouseEvent { clientX : Z; clientY : Z; button : Z }.

(** A snapshot of the element collection; [None] is [undefined]. *)
Abbreviation snapshot := (option (list slot)).

(** The component state the handlers close over. *)
Record board := Board {
  action : string;
  tool : string;
  elements : @History.state snapshot;
  selectedElement : option selected;
  startPanMousePosition : Z * Z;
  pressedKeys : gset string;
  pencilSize : Z;
  isDrawing : bool
}.

(** [useHistory([])] and the initial [useState] values of [App]. *)
Definition initial_board : board :=
  Board "none" "rectangle" (History.useHistory (Some [])) None (0, 0) ∅ 3 false.

(** A handler runs against the state and may throw part-way; the state
    updates queued before the throw stay. *)
Definition handler (A : Type) : Type := board -> board * outcome A.

#[global] Instance handler_ret : MRet handler := fun A a b => (b, Return a).
#[global] Instance handler_bind : MBind handler := fun A B k m b =>
  match m b with
  | (b', Return a) => k a b'
  | (b', Throw msg) => (b', Throw msg)
  end.

Definition lift {A} (o : outcome A) : handler A := fun b => (b, o).

Definition modify (f : board -> board) : handler unit :=
  fun b => (f b, Return tt).

Definition setAction (a : string) : handler unit :=
  modify (fun b => Board a (tool b) (elements b) (selectedElement b)
                     (startPanMousePosition b) (pressedKeys b) (pencilSize b)
                     (isDrawing b)).

Definition setSelectedElement (s : option selected) : handler unit :=
  modify (fun b => Board (action b) (tool b) (elements b) s
                     (startPanMousePosition b) (pressedKeys b) (pencilSize b)
                     (isDrawing b)).

Definition setStartPanMousePosition (p : Z * Z) : handler unit :=
  modify (fun b => Board (action b) (tool b) (elements b) (selectedElement b)
                     p (pressedKeys b) (pencilSize b) (isDrawing b)).

Definition setIsDrawing (d : bool) : handler unit :=
  modify (fun b => Board (action b) (tool b) (elements b) (selectedElement b)
                     (startPanMousePosition b) (pressedKeys b) (pencilSize b) d).

(** [setElements(action, overwrite)] of the render [r]: the store the
    closure captured is the one that is updated. *)
Definition setElements (r : board) (a : @History.action snapshot)
    (overwrite : bool) : handler unit :=
  modify (fun b => Board (action b) (tool b)
                     (History.setState None a overwrite (elements r))
                     (selectedElement b) (startPanMousePosition b)
                     (pressedKeys b) (pencilSize b) (isDrawing b)).

(** [elements], the current snapshot of the render; using it as an array
    when it is [undefined] throws. *)
Definition current_elements (r : board) : outcome (list slot) :=
  match History.current None (elements r) with
  | Some arr => Return arr
  | None => Throw TypeError
  end.

(** An element as it is selected right after its creation. *)
Definition just_created (el : element) : selected :=
  Selected el None 0 0 [] [].

Section Handlers.

(** [measureText(text).width] of the canvas context. *)
Context (measureText : string -> Z).

(** [updateElement(id, x1, y1, x2, y2, type, options)]; [options] is the
    text of [options.text], [None] when no [options] is passed. The pencil
    case spreads [elementsCopy[id].points], which only a pencil stroke
    has. *)
Definition updateElement (r : board) (id : nat) (x1 y1 x2 y2 : Z)
    (type : string) (options : option string) : handler unit :=
  elements ← lift (current_elements r);
  let elementsCopy := spread elements in
  elementsCopy ← lift (
    if ((type =? "line") || (type =? "rectangle"))%string then
      el ← createElement id x1 y1 x2 y2 type default_pencilSize;
      Return (assign elementsCopy id
                (Item (Element (Element.id el) (Element.type el) (box el)
                         (points el) (Some (pencilSize r)) (text el))))
    else if (type =? "pencil")%string then
      match elementsCopy !! id with
      | Some (Item el) =>
          if (Element.type el =? "pencil")%string then
            Return (assign elementsCopy id
                      (Item (Element (Element.id el) (Element.type el) (box el)
                               (points el ++ [Point x2 y2 false])
                               (size el) (text el))))
          else Throw TypeError
      | _ => Throw TypeError
      end
    else if (type =? "text")%string then
      match options with
      | Some text =>
          let textWidth := measureText text in
          let textHeight := 24 in
          el ← createElement id x1 y1 (x1 + textWidth) (y1 + textHeight) type
                 default_pencilSize;
          Return (assign elementsCopy id
                    (Item (Element (Element.id el) (Element.type el) (box el)
                             (points el) (size el) text)))
      | None => Throw TypeError
      end
    else Throw (not_recognised type));
  setElements r (History.Value (Some elementsCopy)) true.

(** [setElements(prevState => [...prevState, element])]; the callers have
    read [elements.length] before, so [prevState] is an array. *)
Definition push_element (r : board) (element : element) : handler unit :=
  setElements r
    (History.Updater (fmap (fun prevState => spread prevState ++ [Item element])))
    false.

Definition handleMouseDown (event : mouse_event) (r : board) : handler unit :=
  if (action r =? "writing")%string then mret tt
  else
    let clientX := clientX event in
    let clientY := clientY event in
    if (button event =? 1) || bool_decide (" " ∈ pressedKeys r) then
      setAction "panning";;
      setStartPanMousePosition (clientX, clientY)
    else
      setIsDrawing true;;
      if (tool r =? "capture")%string then
        elements ← lift (current_elements r);
        let id := length elements in
        element ← lift (createElement id clientX clientY clientX clientY
                          "capture" default_pencilSize);
        push_element r element;;
        setSelectedElement (Some (just_created element));;
        setAction "drawing"
      else if (tool r =? "eraser")%string then
        setAction "erasing";;
        elements ← lift (current_elements r);
        elementToErase ← lift (getElementAtPosition clientX clientY elements);
        match elementToErase with
        | Some elementToErase =>
            kept ← lift (filter_other_ids (id (hit elementToErase)) elements);
            setElements r (History.Value (Some kept)) false
        | None => mret tt
        end
      else if (tool r =? "selection")%string then
        elements ← lift (current_elements r);
        element ← lift (getElementAtPosition clientX clientY elements);
        match element with
        | Some (Located el position) =>
            (if (type el =? "pencil")%string then
               let xOffsets := map (fun point => clientX - px point) (points el) in
               let yOffsets := map (fun point => clientY - py point) (points el) in
               setSelectedElement
                 (Some (Selected el (Some position) 0 0 xOffsets yOffsets))
             else
               let offsetX := clientX - x1 (box el) in
               let offsetY := clientY - y1 (box el) in
               setSelectedElement
                 (Some (Selected el (Some position) offsetX offsetY [] [])));;
            setElements r (History.Updater (fun prevState => prevState)) false;;
            if (position =? "inside")%string then setAction "moving"
            else setAction "resizing"
        | None => mret tt
        end
      else
        elements ← lift (current_elements r);
        let id := length elements in
        element ← lift (createElement id clientX clientY clientX clientY
                          (tool r) (pencilSize r));
        push_element r element;;
        setSelectedElement (Some (just_created element));;
        setAction (if (tool r =? "text")%string then "writing" else "drawing").

(** The [resizing] branch of [handleMouseMove]: the result of
    [resizedCoordinates] is destructured as it comes, which throws when it
    is null. *)
Definition handleMouseMove_resizing (event : mouse_event) (r : board)
    : handler unit :=
  let clientX := clientX event in
  let clientY := clientY event in
  match selectedElement r with
  | None => lift (Throw TypeError)
  | Some selectedElement =>
      let id := id (target selectedElement) in
      let type := type (target selectedElement) in
      let coordinates := box (target selectedElement) in
      match
        position ← handle selectedElement;
        resizedCoordinates clientX clientY position coordinates
      with
      | Some (Coords x1 y1 x2 y2) => updateElement r id x1 y1 x2 y2 type None
      | None => lift (Throw TypeError)
      end
  end.

End Handlers.

(** Running a handler of the render [r]. *)
Definition fire (h : board -> handler unit) (r : board) : board * outcome unit :=
  h r r.

(** The authoritative collection after a handler ran. *)
Definition collection (b : board) : snapshot :=
  History.current None (elements b).

(** Every element sits at the index that is its id. *)
Definition ids_match (arr : list slot) : Prop :=
  forall i el, arr !! i = Some (Item el) -> id el = i.

(** Two rectangles drawn one after the other, and the eraser picked. *)
Definition two_rectangles : board :=
  Board "none" "eraser"
    (History.State 2
       [Some [];
        Some [Item (Element 0 "rectangle" (Coords 0 0 10 10) [] (Some 3) "")];
        Some [Item (Element 0 "rectangle" (Coords 0 0 10 10) [] (Some 3) "");
              Item (Element 1 "rectangle" (Coords 20 20 30 30) [] (Some 3) "")]])
    None (0, 0) ∅ 3 false.

(** *** The id-is-index invariant *)

#[local] Arguments History.setState : simpl never.
#[local] Arguments History.current : simpl never.

Lemma ids_match_spread arr : ids_match arr -> ids_match (spread arr).
Proof.
  intros Harr i el Hi. apply (Harr i el).
  unfold spread in Hi. rewrite list_lookup_fmap in Hi.
  destruct (arr !! i) as [[| | el'] |]; simpl in Hi; congruence.
Qed.

Lemma ids_match_assign arr i el :
  ids_match arr -> id el = i -> ids_match (assign arr i (Item el)).
Proof.
  intros Harr Hid j el' Hj. unfold assign, History.array_set in Hj.
  case_decide as Hlt.
  - destruct (decide (i = j)) as [<- | Hne].
    + rewrite list_lookup_insert_eq in Hj by done. congruence.
    + rewrite list_lookup_insert_ne in Hj by done. by apply Harr.
  - apply lookup_app_Some in Hj as [Hj | [Hlen Hj]]; [by apply Harr |].
    apply lookup_app_Some in Hj as [Hj | [Hlen' Hj]].
    + apply lookup_replicate in Hj as [? _]. congruence.
    + rewrite length_replicate in Hlen', Hj.
      apply list_lookup_singleton_Some in Hj as [Hj Heq].
      assert (el' = el) by congruence. subst el'. lia.
Qed.

Lemma ids_match_push arr el :
  ids_match arr -> id el = length arr ->
  ids_match (spread arr ++ [Item el]).
Proof.
  intros Harr Hid i el' Hi.
  apply lookup_app_Some in Hi as [Hi | [Hlen Hi]].
  - by apply (ids_match_spread arr).
  - unfold spread in Hlen, Hi. rewrite length_map in Hlen, Hi.
    apply list_lookup_singleton_Some in Hi as [Hi Heq].
    assert (el' = el) by congruence. subst el'. lia.
Qed.

Lemma createElement_id i a b c d type size el :
  createElement i a b c d type size = Return el -> id el = i.
Proof.
  unfold createElement. intros H.
  repeat match type of H with
         | (if ?t then _ else _) = _ => destruct t
         end; by inversion H.
Qed.

(** Closes a goal whose store is the one the render started from. *)
Ltac unchanged :=
  let H := fresh in
  intros H;
  match goal with
  | Harr : History.current None _ = Some _ |- _ =>
      rewrite Harr in H; by simplify_eq
  end.

(** Creation ([handleMouseDown] with a drawing tool or the capture tool),
    selection and panning keep every element at the index of its id. *)
Lemma handleMouseDown_keeps_ids event r arr arr' :
  tool r <> "eraser" ->
  History.cursor_ok (elements r) ->
  collection r = Some arr -> ids_match arr ->
  collection (fire (handleMouseDown event) r).1 = Some arr' ->
  ids_match arr'.
Proof.
  intros Htool Hcur Harr Hids. unfold fire, handleMouseDown, collection in *.
  assert (Hcurrent : current_elements r = Return arr)
    by (unfold current_elements; by rewrite Harr).
  destruct (String.eqb_spec (action r) "writing"); [simpl; unchanged |].
  destruct (_ || _); [simpl; unchanged |].
  destruct (String.eqb_spec (tool r) "capture").
  { unfold mbind, handler_bind, lift; simpl. rewrite Hcurrent; simpl.
    rewrite History.current_setState, Harr by done. simpl.
    intros [= <-]. by apply ids_match_push. }
  destruct (String.eqb_spec (tool r) "eraser"); [done |].
  destruct (String.eqb_spec (tool r) "selection").
  { unfold mbind, handler_bind, lift; simpl. rewrite Hcurrent; simpl.
    destruct (getElementAtPosition _ _ arr) as [[[el position] |] | msg]; simpl;
      [| unchanged | unchanged].
    destruct (String.eqb_spec (type el) "pencil"),
      (String.eqb_spec position "inside"); simpl;
      rewrite History.current_setState by done; unchanged. }
  unfold mbind, handler_bind, lift; simpl. rewrite Hcurrent; simpl.
  destruct (createElement _ _ _ _ _ _ _) as [el | msg] eqn:Hcreate; simpl;
    [| unchanged].
  rewrite History.current_setState, Harr by done. simpl.
  intros [= <-]. apply ids_match_push; [done |].
  by eapply createElement_id.
Qed.

(** Drag, resize and move updates ([updateElement]) write the slot of the
    id they are given and keep every element at the index of its id. *)
Lemma updateElement_keeps_ids measureText r i a b c d type options arr arr' :
  History.cursor_ok (elements r) ->
  collection r = Some arr -> ids_match arr ->
  collection (fire (fun r => updateElement measureText r i a b c d type options)
                r).1 = Some arr' ->
  ids_match arr'.
Proof.
  intros Hcur Harr Hids. unfold fire, updateElement, collection in *.
  assert (Hcurrent : current_elements r = Return arr)
    by (unfold current_elements; by rewrite Harr).
  assert (Hsp := ids_match_spread _ Hids).
  unfold mbind at 1, handler_bind at 1, lift at 1. rewrite Hcurrent.
  unfold mbind at 1, handler_bind at 1, lift at 1.
  match goal with
  | |- context [match ?write with Return _ => _ | Throw _ => _ end] =>
      destruct write as [copy | msg] eqn:Hwrite
  end; [| simpl; unchanged].
  unfold setElements; simpl. rewrite History.current_setState by done.
  intros [= <-].
  destruct ((type =? "line")%string || (type =? "rectangle")%string).
  { unfold mbind, outcome_bind in Hwrite.
    destruct (createElement _ _ _ _ _ _ _) as [el |] eqn:Hcreate; [| done].
    injection Hwrite as <-. apply ids_match_assign; [done |].
    simpl. by eapply createElement_id. }
  destruct (type =? "pencil")%string.
  { destruct (spread arr !! i) as [[| | el] |] eqn:Hel; try done.
    destruct (Element.type el =? "pencil")%string; [| done].
    injection Hwrite as <-. apply ids_match_assign; [done |].
    simpl. by apply Hsp. }
  destruct (type =? "text")%string; [| done].
  destruct options as [text |]; [| done].
  unfold mbind, outcome_bind in Hwrite.
  destruct (createElement _ _ _ _ _ _ _) as [el |] eqn:Hcreate; [| done].
  injection Hwrite as <-. apply ids_match_assign; [done |].
  simpl. by eapply createElement_id.
Qed.

(** When [handleMouseDown] starts a resize, the handle it stores is one for
    which [resizedCoordinates] is not null, so the resize branch of
    [handleMouseMove] has coordinates to destructure. *)
Lemma resizing_has_handle event r b' :
  action r <> "resizing" ->
  fire (handleMouseDown event) r = (b', Return tt) ->
  action b' = "resizing" ->
  exists selectedElement position,
    Board.selectedElement b' = Some selectedElement /\
    handle selectedElement = Some position /\
    forall x y, is_Some (resizedCoordinates x y position
                           (box (target selectedElement))).
Proof.
  intros Hr. unfold fire, handleMouseDown.
  destruct (String.eqb_spec (action r) "writing");
    [simpl; intros [= <-]; congruence |].
  destruct (_ || _); [simpl; intros [= <-]; done |].
  destruct (String.eqb_spec (tool r) "capture").
  { unfold mbind, handler_bind, lift; simpl.
    destruct (current_elements r); simpl; [| done]. intros [= <-]. done. }
  destruct (String.eqb_spec (tool r) "eraser").
  { unfold mbind, handler_bind, lift; simpl.
    destruct (current_elements r) as [arr |]; simpl; [| done].
    destruct (getElementAtPosition _ _ arr) as [[hit |] |]; simpl; [| | done].
    - destruct (filter_other_ids _ _); simpl; [| done]. intros [= <-]. done.
    - intros [= <-]. done. }
  destruct (String.eqb_spec (tool r) "selection").
  { unfold mbind, handler_bind, lift; simpl.
    destruct (current_elements r) as [arr |]; simpl; [| done].
    destruct (getElementAtPosition _ _ arr) as [[[el position] |] |] eqn:Hhit;
      simpl; [| intros [= <-]; done | done].
    assert (Hpos : exists x y el', positionWithinElement x y el' = Return (Some position)).
    { clear -Hhit. unfold getElementAtPosition in Hhit.
      destruct (mapM _ arr) as [positions |] eqn:Hmap; simpl in Hhit; [| done].
      revert arr Hmap Hhit.
      induction positions as [| [[el' [p |]] |] positions IH];
        intros arr Hmap Hhit; simpl in Hhit; try done.
      - injection Hhit as <- <-. destruct arr as [| s arr]; simpl in Hmap; [done |].
        destruct s as [| | el'']; simpl in Hmap; [| done |].
        + by destruct (mapM _ arr).
        + unfold mbind, outcome_bind in Hmap.
          destruct (positionWithinElement _ _ el'') as [q |] eqn:Hq; [| done].
          destruct (mapM _ arr); [| done].
          injection Hmap as <- <- _. eauto.
      - destruct arr as [| s arr]; simpl in Hmap; [done |].
        unfold mbind, outcome_bind in Hmap.
        destruct (with_position _ _ s); [| done].
        destruct (mapM _ arr) eqn:Hrest; [| done].
        injection Hmap as _ <-. by eapply IH. }
    destruct Hpos as (x & y & el' & Hpos).
    destruct (String.eqb_spec (type el) "pencil"),
      (String.eqb_spec position "inside"); simpl; intros [= <-]; simpl;
      intros Hact; try done;
      eexists _, position; (split; [reflexivity |]); (split; [reflexivity |]);
      intros cx cy; by eapply resize_after_hit. }
  unfold mbind, handler_bind, lift; simpl.
  destruct (current_elements r); simpl; [| done].
  destruct (createElement _ _ _ _ _ _ _); simpl; [| done].
  intros [= <-]. simpl. by destruct (tool r =? "text")%string.
Qed.

(** C7 fails on the code. With the elements of ids 0 and 1 on the board,
    erasing the first leaves the element of id 1 at index 0; an update of
    that element then writes index 1 and leaves the stale copy at index 0,
    and the next element created is given id 1 again. *)
Theorem eraser_breaks_id_index :
  let erased :=
    (fire (handleMouseDown (MouseEvent 5 5 0)) two_rectangles).1 in
  (exists arr, collection two_rectangles = Some arr /\ ids_match arr) /\
  collection erased
  = Some [Item (Element 1 "rectangle" (Coords 20 20 30 30) [] (Some 3) "")] /\
  (forall arr, collection erased = Some arr -> ~ ids_match arr) /\
  (forall measureText,
     collection
       (fire (fun r => updateElement measureText r 1 21 21 31 31 "rectangle" None)
          erased).1
     = Some [Item (Element 1 "rectangle" (Coords 20 20 30 30) [] (Some 3) "");
             Item (Element 1 "rectangle" (Coords 21 21 31 31) [] (Some 3) "")]) /\
  collection
    (fire (handleMouseDown (MouseEvent 50 50 0))
       (Board "none" "rectangle" (elements erased) None (0, 0) ∅ 3 false)).1
  = Some [Item (Element 1 "rectangle" (Coords 20 20 30 30) [] (Some 3) "");
          Item (Element 1 "rectangle" (Coords 50 50 50 50) [] None "")].
Proof.
  repeat split.
  - eexists; split; [reflexivity |].
    intros [| [| i]] el Hi; simpl in Hi; by simplify_eq.
  - intros arr [= <-] Hids. by specialize (Hids 0%nat _ eq_refl).
Qed.

End Board.

(** ** Region detection ([detectRegions], App.js) *)

Module Region.
Import Surd.

(** The [ImageData] of a canvas: [data] holds four bytes (r, g, b, a) per
    pixel, row by row. *)
Record image := ImageData { width : Z; height : Z; data : list Z }.

(** A pixel as [getPixel] returns it; a component read outside [data] is
    [undefined], here [None]. *)
Record pixel := Pixel {
  r : option Z;
  g : option Z;
  b : option Z;
  a : option Z
}.

(** [data[index]] *)
Definition byte_at (data : list Z) (index : Z) : option Z :=
  if index <? 0 then None else data !! Z.to_nat index.

Definition getPixel (imageData : image) (x y : Z) : pixel :=
  let index := (y * width imageData + x) * 4 in
  Pixel (byte_at (data imageData) index)
        (byte_at (data imageData) (index + 1))
        (byte_at (data imageData) (index + 2))
        (byte_at (data imageData) (index + 3)).

(** [pixel.a > 0]; [undefined > 0] is false. *)
Definition isPixelNonTransparent (p : pixel) : bool :=
  match a p with
  | Some alpha => 0 <? alpha
  | None => false
  end.

Definition isWithinBounds (x y width height : Z) : bool :=
  (0 <=? x) && (x <? width) && (0 <=? y) && (y <? height).

(** A blob: its pixels in the order they were reached, and their bounding
    box. *)
Record t := Region {
  points : list (Z * Z);
  minX : Z;
  maxX : Z;
  minY : Z;
  maxY : Z
}.

(** The set of visited pixels; the key [`${x},${y}`] of the source names
    the pair [(x, y)]. *)
Abbreviation visited_set := (gset (Z * Z)).

Definition neighbors (x y : Z) : list (Z * Z) :=
  [(x + 1, y); (x - 1, y);
   (x, y + 1); (x, y - 1);
   (x + 1, y + 1); (x - 1, y - 1);
   (x + 1, y - 1); (x - 1, y + 1)].

(** The [while (queue.length > 0)] loop of [floodFill]; [None] when the
    iterations allowed by [fuel] do not empty the queue. *)
Fixpoint floodFill_loop (fuel : nat) (imageData : image)
    (queue : list (Z * Z)) (visited : visited_set) (region : t)
    : option (t * visited_set) :=
  match fuel with
  | O => None
  | S fuel =>
      match queue with
      | [] => Some (region, visited)
      | (x, y) :: queue =>
          if bool_decide ((x, y) ∈ visited) then
            floodFill_loop fuel imageData queue visited region
          else if negb (isPixelNonTransparent (getPixel imageData x y)) then
            floodFill_loop fuel imageData queue visited region
          else
            let visited := {[ (x, y) ]} ∪ visited in
            let region :=
              Region (points region ++ [(x, y)])
                     (Z.min (minX region) x) (Z.max (maxX region) x)
                     (Z.min (minY region) y) (Z.max (maxY region) y) in
            let pushed :=
              List.filter
                (fun n => isWithinBounds n.1 n.2 (width imageData)
                            (height imageData)
                          && negb (bool_decide (n ∈ visited)))
                (neighbors x y) in
            floodFill_loop fuel imageData (queue ++ pushed) visited region
      end
  end.

(** Every pixel of the raster, row by row. *)
Definition all_pixels (imageData : image) : list (Z * Z) :=
  y ← seqZ 0 (height imageData);
  x ← seqZ 0 (width imageData);
  [(x, y)].

(** Iterations that always empty the queue: one per pixel taken off it,
    at most eight pushed for each pixel marked, and the last look at the
    empty queue. *)
Definition floodFill_fuel (imageData : image) : nat :=
  8 * S (length (all_pixels imageData)) + 2.

Definition floodFill (imageData : image) (startX startY : Z)
    (visited : visited_set) : option (t * visited_set) :=
  let queue := [(startX, startY)] in
  let region := Region [] startX startX startY startY in
  floodFill_loop (floodFill_fuel imageData) imageData queue visited region.

(** The distance of two bounding boxes: 0 when they overlap on both axes,
    else the root of the squared axis gaps. *)
Definition calculateRegionDistance (region1 region2 : t) : surd :=
  let xOverlap :=
    negb ((maxX region1 <? minX region2) || (minX region1 >? maxX region2)) in
  let yOverlap :=
    negb ((maxY region1 <? minY region2) || (minY region1 >? maxY region2)) in
  if xOverlap && yOverlap then Sqrt 0
  else
    let dx :=
      if negb xOverlap then
        Z.min (Z.abs (maxX region1 - minX region2))
              (Z.abs (minX region1 - maxX region2))
      else 0 in
    let dy :=
      if negb yOverlap then
        Z.min (Z.abs (maxY region1 - minY region2))
              (Z.abs (minY region1 - maxY region2))
      else 0 in
    Sqrt (dx * dx + dy * dy).

Definition mergeRegions (region1 region2 : t) : t :=
  Region (points region1 ++ points region2)
         (Z.min (minX region1) (minX region2))
         (Z.max (maxX region1) (maxX region2))
         (Z.min (minY region1) (minY region2))
         (Z.max (maxY region1) (maxY region2)).

(** [distance <= groupingDistance] *)
Definition within (region1 region2 : t) (groupingDistance : Z) : bool :=
  sqrt_le_int (radicand (calculateRegionDistance region1 region2))
    groupingDistance.

(** A [for] loop over [l] whose body may fail. *)
Fixpoint for_each {St : Type} (l : list Z) (body : Z -> St -> option St)
    (st : St) : option St :=
  match l with
  | [] => Some st
  | i :: l' => st' ← body i st; for_each l' body st'
  end.

(** The body of the two scan loops of [detectRegions]. *)
Definition scan_pixel (imageData : image) (minRegionSize : Z) (x y : Z)
    (st : visited_set * list t) : option (visited_set * list t) :=
  let '(visited, initialRegions) := st in
  if bool_decide ((x, y) ∈ visited) then Some st
  else if negb (isPixelNonTransparent (getPixel imageData x y)) then Some st
  else
    '(region, visited) ← floodFill imageData x y visited;
    if minRegionSize <=? Z.of_nat (length (points region))
    then Some (visited, initialRegions ++ [region])
    else Some (visited, initialRegions).

(** First pass: the blobs of at least [minRegionSize] pixels, in scan
    order. *)
Definition initial_regions (imageData : image) (minRegionSize : Z)
    : option (list t) :=
  st ← for_each (seqZ 0 (height imageData))
         (fun y => for_each (seqZ 0 (width imageData))
                     (fun x => scan_pixel imageData minRegionSize x y))
         (∅, []);
  Some st.2.

(** The inner [for (j = i + 1; ...)] loop for the region at [i]: the first
    later region within reach is merged into it and spliced out. *)
Fixpoint merge_first (region_i : t) (later : list t)
    (groupingDistance : Z) : option (t * list t) :=
  match later with
  | [] => None
  | region_j :: later' =>
      if within region_i region_j groupingDistance then
        Some (mergeRegions region_i region_j, later')
      else
        '(mergedRegion, rest) ← merge_first region_i later' groupingDistance;
        Some (mergedRegion, region_j :: rest)
  end.

(** One run of the two [for] loops: the first pair [(i, j)] within reach
    is merged; [None] when [merged] stays false. *)
Fixpoint merge_pass (regions : list t) (groupingDistance : Z)
    : option (list t) :=
  match regions with
  | [] => None
  | region_i :: later =>
      match merge_first region_i later groupingDistance with
      | Some (mergedRegion, rest) => Some (mergedRegion :: rest)
      | None => cons region_i <$> merge_pass later groupingDistance
      end
  end.

(** The [while (merged)] loop; [None] when [fuel] passes do not reach a
    pass without a merge. *)
Fixpoint merge_loop (fuel : nat) (regions : list t)
    (groupingDistance : Z) : option (list t) :=
  match fuel with
  | O => None
  | S fuel =>
      match merge_pass regions groupingDistance with
      | Some regions' => merge_loop fuel regions' groupingDistance
      | None => Some regions
      end
  end.

(** Second pass: every merge removes a region, so one pass per region and
    a last one without a merge are enough. *)
Definition merge_nearby (regions : list t) (groupingDistance : Z)
    : option (list t) :=
  merge_loop (S (length regions)) regions groupingDistance.

Record bounds := Bounds { x1 : Z; y1 : Z; x2 : Z; y2 : Z }.

(** A region as the application expects it. *)
Record detected := Detected {
  id : nat;
  bounds_of : bounds;
  elements : list Element.element
}.

(** [regions.map((region, index) => ({id: index + 1, bounds, elements: []}))] *)
Definition to_detected (regions : list t) : list detected :=
  imap (fun index region =>
          Detected (index + 1)
            (Bounds (minX region) (minY region) (maxX region) (maxY region))
            [])
       regions.

(** [detectRegions] on the image data of the canvas. *)
Definition detectRegions (imageData : image) (minRegionSize : Z)
    (groupingDistance : Z) : option (list detected) :=
  initialRegions ← initial_regions imageData minRegionSize;
  merged ← merge_nearby initialRegions groupingDistance;
  Some (to_detected merged).

(** The defaults of the two tunables, which is what [handleDetectRegions]
    runs the detector with. *)
Definition default_minRegionSize : Z := 100.
Definition default_groupingDistance : Z := 80.

(** A raster given by the alpha values of its pixels, row by row, the
    colour components being 0. *)
Definition image_of_alpha (width height : Z) (alphas : list Z) : image :=
  ImageData width height (alphas ≫= fun alpha => [0; 0; 0; alpha]).

(** [calculateRegionDistance] as DrawingBoard.js writes it, with the two
    gaps as conditional expressions. *)
Definition calculateRegionDistance_board (region1 region2 : t) : surd :=
  let xOverlap :=
    negb ((maxX region1 <? minX region2) || (minX region1 >? maxX region2)) in
  let yOverlap :=
    negb ((maxY region1 <? minY region2) || (minY region1 >? maxY region2)) in
  if xOverlap && yOverlap then Sqrt 0
  else
    let dx :=
      if negb xOverlap then
        Z.min (Z.abs (maxX region1 - minX region2))
              (Z.abs (minX region1 - maxX region2))
      else 0 in
    let dy :=
      if negb yOverlap then
        Z.min (Z.abs (maxY region1 - minY region2))
              (Z.abs (minY region1 - maxY region2))
      else 0 in
    Sqrt (dx * dx + dy * dy).

(** *** Notions used by the statements *)

(** A bounding box has its minimum below its maximum on both axes. *)
Definition box_ok (region : t) : Prop :=
  minX region <= maxX region /\ minY region <= maxY region.

(** The intervals [lo1, hi1] and [lo2, hi2] share a point. *)
Definition intervals_overlap (lo1 hi1 lo2 hi2 : Z) : Prop :=
  exists v, (lo1 <= v <= hi1) /\ (lo2 <= v <= hi2).

Definition boxes_overlap (region1 region2 : t) : Prop :=
  intervals_overlap (minX region1) (maxX region1) (minX region2) (maxX region2)
  /\ intervals_overlap (minY region1) (maxY region1)
       (minY region2) (maxY region2).

(** The gap between two intervals of an axis: how far the later one starts
    after the earlier one ends, 0 when they overlap. *)
Definition axis_gap (lo1 hi1 lo2 hi2 : Z) : Z :=
  Z.max 0 (Z.max (lo2 - hi1) (lo1 - hi2)).

(** The pixels a fill from [(startX, startY)] can mark. *)
Definition candidates (imageData : image) (startX startY : Z)
    : list (Z * Z) :=
  (startX, startY) :: all_pixels imageData.

(** The state of the fill loop: every point collected lies in the box, and
    the box spans only the start pixel and the points collected. *)
Definition box_ok_loop (startX startY : Z) (region : t) : Prop :=
  box_ok region /\
  (minX region <= startX <= maxX region) /\
  (minY region <= startY <= maxY region) /\
  (forall p, p ∈ points region ->
     (minX region <= p.1 <= maxX region) /\
     (minY region <= p.2 <= maxY region)).

(** The pixel [p] has a positive alpha value: [data] holds the pixels row
    by row, four bytes each, and the alpha value is the fourth byte. *)
Definition opaque (imageData : image) (p : Z * Z) : Prop :=
  exists alpha,
    0 <= p.2 * width imageData + p.1 /\
    data imageData !! Z.to_nat (4 * (p.2 * width imageData + p.1) + 3)
    = Some alpha /\
    0 < alpha.

(** The pixel [p] lies inside the raster. *)
Definition in_bounds (imageData : image) (p : Z * Z) : Prop :=
  (0 <= p.1 < width imageData) /\ (0 <= p.2 < height imageData).

(** [q] is one of the eight pixels around [p]: another pixel, at most one
    column and one row away. *)
Definition adjacent (p q : Z * Z) : Prop :=
  p <> q /\ Z.abs (q.1 - p.1) <= 1 /\ Z.abs (q.2 - p.2) <= 1.

(** [q] is reached from [p] by steps between adjacent pixels that stay in
    [pixels]. *)
Definition linked (pixels : list (Z * Z)) : relation (Z * Z) :=
  rtc (fun a b => b ∈ pixels /\ adjacent a b).

(** What holds of the queue, the visited set and the region whenever the
    fill loop tests its queue, for a fill from [start] entered with
    [visited0]. *)
Record fill_inv (imageData : image) (visited0 : visited_set)
    (start : Z * Z) (queue : list (Z * Z)) (visited : visited_set)
    (region : t) : Prop := FillInv {
  inv_visited : forall p, p ∈ visited <-> p ∈ visited0 \/ p ∈ points region;
  inv_nodup : NoDup (points region);
  inv_opaque : forall p, p ∈ points region ->
    opaque imageData p /\ p ∉ visited0;
  inv_bounds : forall p, p ∈ points region ->
    p = start \/ in_bounds imageData p;
  inv_linked : forall p, p ∈ points region ->
    linked (points region) start p;
  inv_queue : forall q, q ∈ queue ->
    q = start \/
    (in_bounds imageData q /\ exists p, p ∈ points region /\ adjacent p q);
  inv_closed : forall p n, p ∈ points region -> adjacent p n ->
    in_bounds imageData n ->
    n ∈ visited \/ n ∈ queue \/ ~ opaque imageData n;
  inv_start :
    start ∈ points region \/ start ∈ queue \/ start ∈ visited0 \/
    ~ opaque imageData start;
  inv_box : forall p, p ∈ points region ->
    (minX region <= p.1 <= maxX region) /\
    (minY region <= p.2 <= maxY region);
  inv_tight :
    (minX region = start.1 \/ exists p, p ∈ points region /\ p.1 = minX region) /\
    (maxX region = start.1 \/ exists p, p ∈ points region /\ p.1 = maxX region) /\
    (minY region = start.2 \/ exists p, p ∈ points region /\ p.2 = minY region) /\
    (maxY region = start.2 \/ exists p, p ∈ points region /\ p.2 = maxY region)
}.

(** A maximal 8-connected set of opaque pixels of the raster with its
    exact bounding box: its pixels are opaque, inside the raster and linked
    to one another through the set, every opaque pixel of the raster
    adjacent to one of them is among them, and the box is the smallest one
    around them. *)
Record component (imageData : image) (blob : t) : Prop := Component {
  comp_nonempty : points blob <> [];
  comp_opaque : forall p, p ∈ points blob ->
    opaque imageData p /\ in_bounds imageData p;
  comp_linked : forall p q, p ∈ points blob -> q ∈ points blob ->
    linked (points blob) p q;
  comp_maximal : forall p n, p ∈ points blob -> adjacent p n ->
    in_bounds imageData n -> opaque imageData n -> n ∈ points blob;
  comp_box : forall p, p ∈ points blob ->
    (minX blob <= p.1 <= maxX blob) /\ (minY blob <= p.2 <= maxY blob);
  comp_tight :
    (exists p, p ∈ points blob /\ p.1 = minX blob) /\
    (exists p, p ∈ points blob /\ p.1 = maxX blob) /\
    (exists p, p ∈ points blob /\ p.2 = minY blob) /\
    (exists p, p ∈ points blob /\ p.2 = maxY blob)
}.

(** The visited pixels are opaque pixels of the raster, and every opaque
    pixel of the raster next to one of them is visited too. *)
Definition visited_ok (imageData : image) (visited : visited_set) : Prop :=
  (forall p, p ∈ visited -> opaque imageData p /\ in_bounds imageData p) /\
  (forall p n, p ∈ visited -> adjacent p n ->
     in_bounds imageData n -> opaque imageData n -> n ∈ visited).

(** The scan without the size test: every blob it fills, in scan order. *)
Definition fill_pixel (imageData : image) (x y : Z)
    (st : visited_set * list t) : option (visited_set * list t) :=
  let '(visited, blobs) := st in
  if bool_decide ((x, y) ∈ visited) then Some st
  else if negb (isPixelNonTransparent (getPixel imageData x y)) then Some st
  else
    '(region, visited) ← floodFill imageData x y visited;
    Some (visited, blobs ++ [region]).

Definition filled_blobs (imageData : image) : option (list t) :=
  st ← for_each (seqZ 0 (height imageData))
         (fun y => for_each (seqZ 0 (width imageData))
                     (fun x => fill_pixel imageData x y))
         (∅, []);
  Some st.2.

(** A blob has at least [minRegionSize] pixels. *)
Definition large_enough (minRegionSize : Z) (blob : t) : Prop :=
  minRegionSize <= Z.of_nat (length (points blob)).

#[global] Instance large_enough_dec minRegionSize blob :
  Decision (large_enough minRegionSize blob).
Proof. unfold large_enough. apply _. Defined.

(** Two blobs hold the same pixels. *)
Definition same_pixels (blob1 blob2 : t) : Prop :=
  forall p, p ∈ points blob1 <-> p ∈ points blob2.

(** What the scan without the size test keeps between two pixels: the
    visited set holds the pixels of the blobs found so far, which are
    components of the raster without a pixel in common. *)
Record scan_inv (imageData : image) (st : visited_set * list t)
    : Prop := ScanInv {
  scan_visited_ok : visited_ok imageData st.1;
  scan_visited : forall p,
    p ∈ st.1 <-> exists blob, blob ∈ st.2 /\ p ∈ points blob;
  scan_components : Forall (component imageData) st.2;
  scan_disjoint : NoDup (st.2 ≫= points)
}.

(** No region of the list is within reach of a later one. *)
Definition settled (regions : list t) (groupingDistance : Z) : Prop :=
  forall i j region_i region_j,
    (i < j)%nat ->
    regions !! i = Some region_i -> regions !! j = Some region_j ->
    within region_i region_j groupingDistance = false.

(** The bounding box of three regions together. *)
Definition bounds_of_three (A B C : t) : bounds :=
  Bounds (Z.min (minX A) (Z.min (minX B) (minX C)))
         (Z.min (minY A) (Z.min (minY B) (minY C)))
         (Z.max (maxX A) (Z.max (maxX B) (maxX C)))
         (Z.max (maxY A) (Z.max (maxY B) (maxY C))).

Definition bounds_of_region (region : t) : bounds :=
  Bounds (minX region) (minY region) (maxX region) (maxY region).

(** *** The distance of two bounding boxes *)

Lemma intervals_overlap_iff lo1 hi1 lo2 hi2 :
  lo1 <= hi1 -> lo2 <= hi2 ->
  intervals_overlap lo1 hi1 lo2 hi2 <-> lo2 <= hi1 /\ lo1 <= hi2.
Proof.
  intros H1 H2; split.
  - intros (v & ? & ?). lia.
  - intros [? ?]. exists (Z.max lo1 lo2). lia.
Qed.

Lemma axis_gap_zero lo1 hi1 lo2 hi2 :
  lo1 <= hi1 -> lo2 <= hi2 ->
  axis_gap lo1 hi1 lo2 hi2 = 0 <-> intervals_overlap lo1 hi1 lo2 hi2.
Proof.
  intros H1 H2. rewrite intervals_overlap_iff by done.
  unfold axis_gap. lia.
Qed.

(** The gap is the least distance between a point of one interval and a
    point of the other. *)
Lemma axis_gap_least lo1 hi1 lo2 hi2 :
  lo1 <= hi1 -> lo2 <= hi2 ->
  (forall u v, lo1 <= u <= hi1 -> lo2 <= v <= hi2 ->
     axis_gap lo1 hi1 lo2 hi2 <= Z.abs (u - v)) /\
  (exists u v, (lo1 <= u <= hi1) /\ (lo2 <= v <= hi2) /\
     axis_gap lo1 hi1 lo2 hi2 = Z.abs (u - v)).
Proof.
  intros H1 H2. unfold axis_gap. split.
  - intros u v Hu Hv. lia.
  - destruct (Z.lt_ge_cases hi1 lo2); [exists hi1, lo2; lia |].
    destruct (Z.lt_ge_cases hi2 lo1); [exists lo1, hi2; lia |].
    exists (Z.max lo1 lo2), (Z.max lo1 lo2). lia.
Qed.

(** On bounding boxes the distance is the root of the squared axis gaps. *)
Lemma calculateRegionDistance_gaps region1 region2 :
  box_ok region1 -> box_ok region2 ->
  calculateRegionDistance region1 region2
  = let dx := axis_gap (minX region1) (maxX region1)
                (minX region2) (maxX region2) in
    let dy := axis_gap (minY region1) (maxY region1)
                (minY region2) (maxY region2) in
    Sqrt (dx * dx + dy * dy).
Proof.
  intros [Hx1 Hy1] [Hx2 Hy2].
  unfold calculateRegionDistance, axis_gap.
  destruct region1 as [p1 a1 b1 c1 d1], region2 as [p2 a2 b2 c2 d2];
    simpl in *.
  cmp_cases; f_equal;
    repeat match goal with
           | |- context [Z.max ?u ?v] =>
               first [ rewrite (Z.max_l u v) by lia
                     | rewrite (Z.max_r u v) by lia ]
           | |- context [Z.min ?u ?v] =>
               first [ rewrite (Z.min_l u v) by lia
                     | rewrite (Z.min_r u v) by lia ]
           | |- context [Z.abs ?u] =>
               first [ rewrite (Z.abs_eq u) by lia
                     | rewrite (Z.abs_neq u) by lia ]
           end; ring.
Qed.

Lemma calculateRegionDistance_radicand_nonneg region1 region2 :
  0 <= radicand (calculateRegionDistance region1 region2).
Proof.
  unfold calculateRegionDistance.
  destruct (_ && _); simpl; [done | nia].
Qed.

(** C3. For bounding boxes the distance is 0 exactly when the boxes overlap
    on both axes, and in every case it is the root of dx^2 + dy^2, where dx
    and dy are the gaps between the boxes on the x and the y axis (0 on an
    axis where the intervals overlap). *)
Theorem region_distance_axis_gaps (region1 region2 : t) :
  box_ok region1 -> box_ok region2 ->
  let dx := axis_gap (minX region1) (maxX region1)
              (minX region2) (maxX region2) in
  let dy := axis_gap (minY region1) (maxY region1)
              (minY region2) (maxY region2) in
  (surd_val (calculateRegionDistance region1 region2) = 0%R
   <-> boxes_overlap region1 region2) /\
  surd_val (calculateRegionDistance region1 region2)
  = sqrt (IZR dx * IZR dx + IZR dy * IZR dy) /\
  (dx = 0 <-> intervals_overlap (minX region1) (maxX region1)
                (minX region2) (maxX region2)) /\
  (dy = 0 <-> intervals_overlap (minY region1) (maxY region1)
                (minY region2) (maxY region2)).
Proof.
  intros Hok1 Hok2 dx dy.
  pose proof Hok1 as [Hx1 Hy1]. pose proof Hok2 as [Hx2 Hy2].
  assert (Hdx := axis_gap_zero _ _ _ _ Hx1 Hx2). fold dx in Hdx.
  assert (Hdy := axis_gap_zero _ _ _ _ Hy1 Hy2). fold dy in Hdy.
  rewrite calculateRegionDistance_gaps by done. fold dx dy.
  unfold surd_val; simpl. rewrite plus_IZR, !mult_IZR.
  split; [| split; [done | split; assumption]].
  unfold boxes_overlap. rewrite <- Hdx, <- Hdy.
  rewrite <- !mult_IZR, <- plus_IZR. split.
  - intros Hz. apply sqrt_eq_0 in Hz; [| apply IZR_le; nia].
    apply eq_IZR in Hz. nia.
  - intros [-> ->]. simpl. apply sqrt_0.
Qed.

(** C10. The distance of two regions does not depend on their order, in
    App.js and in DrawingBoard.js alike. *)
Theorem region_distance_symmetric (region1 region2 : t) :
  calculateRegionDistance region1 region2
  = calculateRegionDistance region2 region1 /\
  calculateRegionDistance_board region1 region2
  = calculateRegionDistance_board region2 region1 /\
  calculateRegionDistance_board region1 region2
  = calculateRegionDistance region1 region2.
Proof.
  assert (Hsym : calculateRegionDistance region1 region2
                 = calculateRegionDistance region2 region1).
  { unfold calculateRegionDistance.
    destruct region1 as [p1 a1 b1 c1 d1], region2 as [p2 a2 b2 c2 d2];
      simpl.
    replace (Z.min (Z.abs (b2 - a1)) (Z.abs (a2 - b1)))
      with (Z.min (Z.abs (b1 - a2)) (Z.abs (a1 - b2))) by lia.
    replace (Z.min (Z.abs (d2 - c1)) (Z.abs (c2 - d1)))
      with (Z.min (Z.abs (d1 - c2)) (Z.abs (c1 - d2))) by lia.
    cmp_cases; try lia; done. }
  by repeat split.
Qed.

(** *** The flood fill always finishes *)

(** One iteration of the fill loop. *)
Lemma floodFill_loop_S (fuel : nat) (imageData : image)
    (queue : list (Z * Z)) (visited : visited_set) (region : t) :
  floodFill_loop (S fuel) imageData queue visited region
  = match queue with
    | [] => Some (region, visited)
    | (x, y) :: queue =>
        if bool_decide ((x, y) ∈ visited) then
          floodFill_loop fuel imageData queue visited region
        else if negb (isPixelNonTransparent (getPixel imageData x y)) then
          floodFill_loop fuel imageData queue visited region
        else
          floodFill_loop fuel imageData
            (queue
             ++ List.filter
                  (fun n => isWithinBounds n.1 n.2 (width imageData)
                              (height imageData)
                            && negb (bool_decide
                                       (n ∈ {[ (x, y) ]} ∪ visited)))
                  (neighbors x y))
            ({[ (x, y) ]} ∪ visited)
            (Region (points region ++ [(x, y)])
               (Z.min (minX region) x) (Z.max (maxX region) x)
               (Z.min (minY region) y) (Z.max (maxY region) y))
    end.
Proof. reflexivity. Qed.

Lemma within_bounds_all_pixels imageData x y :
  isWithinBounds x y (width imageData) (height imageData) = true ->
  (x, y) ∈ all_pixels imageData.
Proof.
  unfold isWithinBounds, all_pixels. intros H.
  repeat (apply andb_prop in H as [H ?]).
  apply list_elem_of_bind. exists y. split; [| apply elem_of_seqZ; lia].
  apply list_elem_of_bind. exists x. split; [set_solver |].
  apply elem_of_seqZ; lia.
Qed.

Lemma all_pixels_within_bounds imageData p :
  p ∈ all_pixels imageData ->
  isWithinBounds p.1 p.2 (width imageData) (height imageData) = true.
Proof.
  unfold all_pixels. intros H.
  apply list_elem_of_bind in H as (y & H & Hy).
  apply list_elem_of_bind in H as (x & H & Hx).
  apply list_elem_of_singleton in H as ->.
  apply elem_of_seqZ in Hx, Hy. unfold isWithinBounds; simpl.
  repeat (apply andb_true_intro; split); lia.
Qed.

(** Marking one more pixel never raises the number of unmarked ones, and
    lowers it when the pixel is among them. *)
Lemma unmarked_le (l : list (Z * Z)) (p : Z * Z) (visited : visited_set) :
  (length (filter (fun q => q ∉ {[ p ]} ∪ visited) l)
   <= length (filter (fun q => q ∉ visited) l))%nat.
Proof.
  induction l as [| q l IH]; [done |].
  rewrite !filter_cons.
  destruct (decide (q ∉ {[ p ]} ∪ visited)) as [Hq | Hq].
  - rewrite decide_True by set_solver. simpl. lia.
  - destruct (decide (q ∉ visited)); simpl; lia.
Qed.

Lemma unmarked_lt (l : list (Z * Z)) (p : Z * Z) (visited : visited_set) :
  p ∈ l -> p ∉ visited ->
  (length (filter (fun q => q ∉ {[ p ]} ∪ visited) l)
   < length (filter (fun q => q ∉ visited) l))%nat.
Proof.
  intros Hin Hp. induction l as [| q l IH]; [by apply elem_of_nil in Hin |].
  rewrite !filter_cons.
  apply elem_of_cons in Hin as [<- | Hin].
  - rewrite decide_False by set_solver. rewrite decide_True by done.
    pose proof (unmarked_le l p visited). simpl. lia.
  - specialize (IH Hin).
    destruct (decide (q ∉ {[ p ]} ∪ visited)) as [Hq | Hq].
    + rewrite decide_True by set_solver. simpl. lia.
    + destruct (decide (q ∉ visited)); simpl; lia.
Qed.

Lemma pushed_neighbors (imageData : image) (x y : Z) (visited : visited_set) :
  let pushed :=
    List.filter
      (fun n => isWithinBounds n.1 n.2 (width imageData) (height imageData)
                && negb (bool_decide (n ∈ visited)))
      (neighbors x y) in
  (length pushed <= 8)%nat /\
  (forall n, n ∈ pushed ->
     n ∈ neighbors x y /\ n ∈ all_pixels imageData /\ n ∉ visited).
Proof.
  split.
  - apply (List.filter_length_le _ (neighbors x y)).
  - intros [nx ny] Hn. apply list_elem_of_In, List.filter_In in Hn as [Hn Hb].
    apply andb_prop in Hb as [Hb Hv]. split; [by apply list_elem_of_In |].
    split; [by apply within_bounds_all_pixels |].
    apply negb_true_iff, bool_decide_eq_false in Hv. done.
Qed.

Lemma floodFill_loop_enough imageData startX startY fuel :
  forall queue (visited : visited_set) region,
    (forall p, p ∈ queue -> p ∈ candidates imageData startX startY) ->
    (length queue
     + 8 * length (filter (fun q => q ∉ visited)
                     (candidates imageData startX startY))
     < fuel)%nat ->
    is_Some (floodFill_loop fuel imageData queue visited region).
Proof.
  induction fuel as [| fuel IH]; intros queue visited region Hq Hfuel; [lia |].
  rewrite floodFill_loop_S. destruct queue as [| [x y] queue]; [done |].
  change (length ((x, y) :: queue)) with (S (length queue)) in Hfuel.
  assert (Hq' : forall p, p ∈ queue -> p ∈ candidates imageData startX startY)
    by (intros p Hp; apply Hq; by right).
  case_bool_decide as Hvis; [apply IH; [done | lia] |].
  destruct (isPixelNonTransparent _); cbn [negb]; [| apply IH; [done | lia]].
  destruct (pushed_neighbors imageData x y ({[ (x, y) ]} ∪ visited))
    as [Hlen Hpushed].
  pose proof (unmarked_lt (candidates imageData startX startY) (x, y) visited
                (Hq _ (list_elem_of_here _ _)) Hvis).
  apply IH.
  - intros p Hp. apply elem_of_app in Hp as [Hp | Hp]; [by apply Hq' |].
    right. by apply Hpushed.
  - rewrite length_app. lia.
Qed.

(** [floodFill] returns for every raster, start pixel and visited set. *)
Lemma floodFill_total (imageData : image) (startX startY : Z)
    (visited : visited_set) :
  is_Some (floodFill imageData startX startY visited).
Proof.
  unfold floodFill.
  apply (floodFill_loop_enough imageData startX startY).
  - intros p Hp. apply list_elem_of_singleton in Hp as ->. by left.
  - unfold floodFill_fuel.
    pose proof (length_filter (fun q => q ∉ visited)
                  (candidates imageData startX startY)) as Hle.
    simpl in *. lia.
Qed.

(** *** What a fill returns *)

Lemma floodFill_loop_box imageData startX startY fuel :
  forall queue (visited : visited_set) region res,
    box_ok_loop startX startY region ->
    floodFill_loop fuel imageData queue visited region = Some res ->
    box_ok_loop startX startY res.1.
Proof.
  induction fuel as [| fuel IH]; intros queue visited region res Hok;
    [done |].
  rewrite floodFill_loop_S.
  destruct queue as [| [x y] queue]; [by intros [= <-] |].
  case_bool_decide; [by apply IH |].
  destruct (isPixelNonTransparent _); cbn [negb]; [| by apply IH].
  apply IH. destruct Hok as ([? ?] & ? & ? & Hpts).
  unfold box_ok_loop, box_ok; simpl.
  split; [lia |]. split; [lia |]. split; [lia |].
  intros p Hp. apply elem_of_app in Hp as [Hp | Hp].
  - apply Hpts in Hp. lia.
  - apply list_elem_of_singleton in Hp as ->. simpl. lia.
Qed.

Lemma floodFill_box (imageData : image) (startX startY : Z)
    (visited : visited_set) (res : t * visited_set) :
  floodFill imageData startX startY visited = Some res ->
  box_ok res.1.
Proof.
  unfold floodFill. intros H.
  eapply (floodFill_loop_box _ startX startY) in H; [apply H |].
  unfold box_ok_loop, box_ok; simpl.
  split; [lia |]. split; [lia |]. split; [lia |].
  intros p Hp. by apply elem_of_nil in Hp.
Qed.

(** *** A fill collects the 8-connected component of its start pixel *)

(** The three notions against the tests the code makes. *)
Lemma opaque_test (imageData : image) (x y : Z) :
  opaque imageData (x, y) <->
  isPixelNonTransparent (getPixel imageData x y) = true.
Proof.
  unfold opaque, isPixelNonTransparent, getPixel, byte_at; simpl.
  replace ((y * width imageData + x) * 4 + 3)
    with (4 * (y * width imageData + x) + 3) by ring.
  destruct (Z.ltb_spec (4 * (y * width imageData + x) + 3) 0) as [Hneg | Hpos].
  - split; [| done]. intros (alpha & Hk & _). lia.
  - destruct (data imageData !! _) as [alpha |] eqn:Halpha.
    + rewrite Z.ltb_lt. split.
      * by intros (alpha' & _ & [= <-] & Ha).
      * intros Ha. exists alpha. repeat split; [lia | done].
    + split; [| done]. by intros (alpha & _ & ? & _).
Qed.

Lemma in_bounds_test (imageData : image) (x y : Z) :
  in_bounds imageData (x, y) <->
  isWithinBounds x y (width imageData) (height imageData) = true.
Proof.
  unfold in_bounds, isWithinBounds; simpl.
  rewrite !andb_true_iff, !Z.leb_le, !Z.ltb_lt. tauto.
Qed.

Lemma adjacent_neighbors (p q : Z * Z) :
  adjacent p q <-> q ∈ neighbors p.1 p.2.
Proof.
  destruct p as [px py], q as [qx qy]. unfold adjacent, neighbors; simpl.
  rewrite !elem_of_cons, elem_of_nil. split.
  - intros (Hne & Hx & Hy).
    assert (Hqx : qx = px - 1 \/ qx = px \/ qx = px + 1) by lia.
    assert (Hqy : qy = py - 1 \/ qy = py \/ qy = py + 1) by lia.
    destruct Hqx as [-> | [-> | ->]], Hqy as [-> | [-> | ->]];
      try done; auto 10.
  - intros H.
    repeat (destruct H as [[= -> ->] | H];
            [split; [intros [=]; lia | lia] |]).
    done.
Qed.

Lemma adjacent_sym p q : adjacent p q -> adjacent q p.
Proof.
  unfold adjacent. intros (Hne & Hx & Hy). split; [congruence | lia].
Qed.

Lemma linked_mono pixels pixels' p q :
  (forall a, a ∈ pixels -> a ∈ pixels') ->
  linked pixels p q -> linked pixels' p q.
Proof.
  intros Hsub. apply rtc_subrel. intros a b [Hb Hab]. split; auto.
Qed.

Lemma fill_inv_start (imageData : image) (visited0 : visited_set)
    (startX startY : Z) :
  fill_inv imageData visited0 (startX, startY) [(startX, startY)] visited0
    (Region [] startX startX startY startY).
Proof.
  split; simpl.
  - intros p. split; [auto |]. intros [? | H]; [done |].
    by apply elem_of_nil in H.
  - constructor.
  - intros p H. by apply elem_of_nil in H.
  - intros p H. by apply elem_of_nil in H.
  - intros p H. by apply elem_of_nil in H.
  - intros q Hq. apply list_elem_of_singleton in Hq. by left.
  - intros p n H. by apply elem_of_nil in H.
  - right; left. by apply list_elem_of_singleton.
  - intros p H. by apply elem_of_nil in H.
  - repeat split; by left.
Qed.

(** Taking a pixel off the queue without marking it. *)
Lemma fill_inv_skip (imageData : image) (visited0 : visited_set)
    (start q : Z * Z) (queue : list (Z * Z)) (visited : visited_set)
    (region : t) :
  fill_inv imageData visited0 start (q :: queue) visited region ->
  q ∈ visited \/ ~ opaque imageData q ->
  fill_inv imageData visited0 start queue visited region.
Proof.
  intros [] Hq. split; try done.
  - intros q' Hq'. apply inv_queue0. by right.
  - intros p n Hp Hn Hb.
    destruct (inv_closed0 p n Hp Hn Hb) as [? | [Hin | ?]]; auto.
    apply elem_of_cons in Hin as [-> | Hin]; [| auto].
    destruct Hq; auto.
  - destruct inv_start0 as [? | [Hin | ?]]; auto.
    apply elem_of_cons in Hin as [-> | Hin]; [| auto].
    destruct Hq as [Hq | Hq]; [| auto].
    apply inv_visited0 in Hq as [? | ?]; auto.
Qed.

(** Marking the pixel taken off the queue. *)
Lemma fill_inv_mark (imageData : image) (visited0 : visited_set)
    (start : Z * Z) (x y : Z) (queue : list (Z * Z))
    (visited : visited_set) (region : t) :
  fill_inv imageData visited0 start ((x, y) :: queue) visited region ->
  (x, y) ∉ visited -> opaque imageData (x, y) ->
  fill_inv imageData visited0 start
    (queue
     ++ List.filter
          (fun n => isWithinBounds n.1 n.2 (width imageData)
                      (height imageData)
                    && negb (bool_decide (n ∈ {[ (x, y) ]} ∪ visited)))
          (neighbors x y))
    ({[ (x, y) ]} ∪ visited)
    (Region (points region ++ [(x, y)])
       (Z.min (minX region) x) (Z.max (maxX region) x)
       (Z.min (minY region) y) (Z.max (maxY region) y)).
Proof.
  intros [] Hfresh Hopaque.
  assert (Hnew : (x, y) ∉ points region).
  { intros Hin. apply Hfresh, inv_visited0. by right. }
  assert (Hnot0 : (x, y) ∉ visited0).
  { intros Hin. apply Hfresh, inv_visited0. by left. }
  assert (Hsub : forall a, a ∈ points region -> a ∈ points region ++ [(x, y)])
    by (intros a Ha; apply elem_of_app; by left).
  assert (Hlast : (x, y) ∈ points region ++ [(x, y)])
    by (apply elem_of_app; right; by apply list_elem_of_singleton).
  split; cbn [points minX maxX minY maxY].
  - intros p. rewrite elem_of_union, elem_of_singleton, elem_of_app,
      list_elem_of_singleton, inv_visited0. tauto.
  - apply NoDup_app. split; [done |]. split; [| apply NoDup_singleton].
    intros p Hp Hp'. apply list_elem_of_singleton in Hp' as ->. done.
  - intros p Hp. apply elem_of_app in Hp as [Hp | Hp]; [auto |].
    by apply list_elem_of_singleton in Hp as ->.
  - intros p Hp. apply elem_of_app in Hp as [Hp | Hp]; [auto |].
    apply list_elem_of_singleton in Hp as ->.
    destruct (inv_queue0 (x, y) (list_elem_of_here _ _)) as [? | [? _]]; auto.
  - intros p Hp. apply elem_of_app in Hp as [Hp | Hp].
    + eapply linked_mono; [exact Hsub | auto].
    + apply list_elem_of_singleton in Hp as ->.
      destruct (inv_queue0 (x, y) (list_elem_of_here _ _))
        as [-> | (_ & p & Hp & Hadj)]; [apply rtc_refl |].
      apply (rtc_r _ p);
        [eapply linked_mono; [exact Hsub | by apply inv_linked0] |].
      simpl. by split.
  - intros q Hq. apply elem_of_app in Hq as [Hq | Hq].
    + destruct (inv_queue0 q) as [? | (? & p & ? & ?)]; [by right | by left |].
      right. split; [done |]. exists p. auto.
    + apply list_elem_of_In, List.filter_In in Hq as [Hq Hb].
      apply andb_prop in Hb as [Hb _]. right.
      split; [destruct q; by apply in_bounds_test |].
      exists (x, y). split; [done |].
      by apply adjacent_neighbors, list_elem_of_In.
  - intros p n Hp Hadj Hb. apply elem_of_app in Hp as [Hp | Hp].
    + destruct (inv_closed0 p n Hp Hadj Hb) as [? | [Hin | ?]]; auto.
      * left. apply elem_of_union. by right.
      * apply elem_of_cons in Hin as [-> | Hin];
          [left; apply elem_of_union; left; by apply elem_of_singleton |].
        right; left. apply elem_of_app. by left.
    + apply list_elem_of_singleton in Hp as ->.
      destruct (decide (n ∈ {[ (x, y) ]} ∪ visited)) as [? | Hn]; [by left |].
      right; left. apply elem_of_app. right.
      apply list_elem_of_In, List.filter_In.
      split; [by apply list_elem_of_In, (adjacent_neighbors (x, y)) |].
      apply andb_true_intro.
      split; [destruct n; by apply in_bounds_test |].
      by apply negb_true_iff, bool_decide_eq_false.
  - destruct inv_start0 as [? | [Hin | ?]]; auto.
    apply elem_of_cons in Hin as [Heq | Hin];
      [left; by rewrite Heq |].
    right; left. apply elem_of_app. by left.
  - intros p Hp. apply elem_of_app in Hp as [Hp | Hp].
    + apply inv_box0 in Hp. lia.
    + apply list_elem_of_singleton in Hp as ->. simpl. lia.
  - destruct inv_tight0 as (H1 & H2 & H3 & H4).
    assert (Hkeep : forall (f : Z * Z -> Z) v,
              (exists p, p ∈ points region /\ f p = v) ->
              exists p, p ∈ points region ++ [(x, y)] /\ f p = v).
    { intros f v (p & Hp & Hv). exists p. auto. }
    repeat split.
    + destruct (Z.min_spec (minX region) x) as [[_ ->] | [_ ->]];
        [destruct H1; eauto | right; by exists (x, y)].
    + destruct (Z.max_spec (maxX region) x) as [[_ ->] | [_ ->]];
        [right; by exists (x, y) | destruct H2; eauto].
    + destruct (Z.min_spec (minY region) y) as [[_ ->] | [_ ->]];
        [destruct H3; eauto | right; by exists (x, y)].
    + destruct (Z.max_spec (maxY region) y) as [[_ ->] | [_ ->]];
        [right; by exists (x, y) | destruct H4; eauto].
Qed.

Lemma floodFill_loop_inv (imageData : image) (visited0 : visited_set)
    (start : Z * Z) (fuel : nat) :
  forall (queue : list (Z * Z)) (visited : visited_set) (region : t)
         (res : t * visited_set),
    fill_inv imageData visited0 start queue visited region ->
    floodFill_loop fuel imageData queue visited region = Some res ->
    fill_inv imageData visited0 start [] res.2 res.1.
Proof.
  induction fuel as [| fuel IH]; intros queue visited region res Hinv;
    [done |].
  rewrite floodFill_loop_S.
  destruct queue as [| [x y] queue]; [by intros [= <-] |].
  case_bool_decide as Hvis.
  { apply IH. eapply fill_inv_skip; [done | by left]. }
  destruct (isPixelNonTransparent (getPixel imageData x y)) eqn:Hop;
    cbn [negb].
  - apply IH. apply fill_inv_mark; [done | done | by apply opaque_test].
  - apply IH. eapply fill_inv_skip; [done |]. right.
    rewrite opaque_test. by rewrite Hop.
Qed.

Lemma linked_sym pixels p q :
  p ∈ pixels -> linked pixels p q -> linked pixels q p.
Proof.
  intros Hp Hpq. induction Hpq as [| a b c [Hb Hab] _ IH]; [apply rtc_refl |].
  eapply rtc_r; [by apply IH |]. simpl. split; [done | by apply adjacent_sym].
Qed.

(** A fill started, as the scan starts it, on an opaque pixel of the raster
    that is not visited returns the component of that pixel and adds its
    pixels to the visited set. *)
Lemma floodFill_component (imageData : image) (x y : Z)
    (visited0 visited : visited_set) (region : t) :
  floodFill imageData x y visited0 = Some (region, visited) ->
  in_bounds imageData (x, y) -> opaque imageData (x, y) ->
  (x, y) ∉ visited0 ->
  visited_ok imageData visited0 ->
  component imageData region /\
  NoDup (points region) /\
  (forall p, p ∈ points region -> p ∉ visited0) /\
  (forall p, p ∈ visited <-> p ∈ visited0 \/ p ∈ points region) /\
  (x, y) ∈ points region /\
  visited_ok imageData visited.
Proof.
  intros Hfill Hstart_b Hstart_o Hstart_v [Hvis0 Hclosed0].
  unfold floodFill in Hfill.
  pose proof (floodFill_loop_inv imageData visited0 (x, y) _ _ _ _ _
                (fill_inv_start imageData visited0 x y) Hfill) as Hinv.
  simpl in Hinv. destruct Hinv.
  assert (Hin : (x, y) ∈ points region).
  { destruct inv_start0 as [? | [Hq | [? | ?]]]; try done.
    by apply elem_of_nil in Hq. }
  assert (Hbounds : forall p, p ∈ points region -> in_bounds imageData p).
  { intros p Hp. by destruct (inv_bounds0 p Hp) as [-> | ?]. }
  assert (Hmax : forall p n, p ∈ points region -> adjacent p n ->
            in_bounds imageData n -> opaque imageData n -> n ∈ points region).
  { intros p n Hp Hadj Hb Ho.
    destruct (inv_closed0 p n Hp Hadj Hb) as [Hn | [Hn | Hn]];
      [| by apply elem_of_nil in Hn | done].
    apply inv_visited0 in Hn as [Hn | Hn]; [| done].
    exfalso. apply (proj2 (inv_opaque0 p Hp)).
    apply (Hclosed0 n p); auto using adjacent_sym.
    apply inv_opaque0, Hp. }
  split; [| split; [done |]; split; [| split; [done |]; split; [done |]]].
  - split.
    + intros Hempty. rewrite Hempty in Hin. by apply elem_of_nil in Hin.
    + intros p Hp. split; [apply inv_opaque0, Hp | by apply Hbounds].
    + intros p q Hp Hq. transitivity (x, y); [| by apply inv_linked0].
      apply linked_sym; [done | by apply inv_linked0].
    + exact Hmax.
    + exact inv_box0.
    + destruct inv_tight0 as (H1 & H2 & H3 & H4). simpl in *.
      repeat split.
      * destruct H1 as [-> | ?]; [by exists (x, y) | done].
      * destruct H2 as [-> | ?]; [by exists (x, y) | done].
      * destruct H3 as [-> | ?]; [by exists (x, y) | done].
      * destruct H4 as [-> | ?]; [by exists (x, y) | done].
  - intros p Hp. apply inv_opaque0, Hp.
  - split.
    + intros p Hp. apply inv_visited0 in Hp as [Hp | Hp]; [by apply Hvis0 |].
      split; [apply inv_opaque0, Hp | by apply Hbounds].
    + intros p n Hp Hadj Hb Ho. apply inv_visited0.
      apply inv_visited0 in Hp as [Hp | Hp].
      * left. by apply (Hclosed0 p n).
      * right. by apply (Hmax p n).
Qed.

(** *** The scan *)

Lemma for_each_total {St : Type} (l : list Z) (body : Z -> St -> option St) :
  (forall i st, is_Some (body i st)) ->
  forall st, is_Some (for_each l body st).
Proof.
  intros Hbody. induction l as [| i l IH]; intros st; simpl; [done |].
  destruct (Hbody i st) as [st' ->]. apply IH.
Qed.

Lemma for_each_unchanged {St : Type} (l : list Z)
    (body : Z -> St -> option St) (st : St) :
  (forall i, i ∈ l -> body i st = Some st) ->
  for_each l body st = Some st.
Proof.
  induction l as [| i l IH]; intros Hbody; simpl; [done |].
  rewrite Hbody by left. simpl. apply IH. intros j Hj. apply Hbody. by right.
Qed.

Lemma for_each_invariant {St : Type} (P : St -> Prop) (l : list Z)
    (body : Z -> St -> option St) :
  (forall i st st', i ∈ l -> P st -> body i st = Some st' -> P st') ->
  forall st st', P st -> for_each l body st = Some st' -> P st'.
Proof.
  induction l as [| i l IH]; intros Hbody st st' Hst; simpl.
  - by intros [= <-].
  - destruct (body i st) as [st1 |] eqn:Hi; simpl; [| done].
    apply IH.
    + intros j st2 st3 Hj. apply Hbody. by right.
    + eapply Hbody; [by left | done | done].
Qed.

(** Two loops over the same range whose bodies keep their states related
    end in related states. *)
Lemma for_each_related {St1 St2 : Type} (R : St1 -> St2 -> Prop)
    (l : list Z) (body1 : Z -> St1 -> option St1)
    (body2 : Z -> St2 -> option St2) :
  (forall i st1 st2, R st1 st2 ->
     option_Forall2 R (body1 i st1) (body2 i st2)) ->
  forall st1 st2, R st1 st2 ->
    option_Forall2 R (for_each l body1 st1) (for_each l body2 st2).
Proof.
  intros Hbody. induction l as [| i l IH]; intros st1 st2 Hst; simpl.
  - by constructor.
  - destruct (Hbody i st1 st2 Hst) as [st1' st2' Hst' |]; simpl.
    + by apply IH.
    + constructor.
Qed.

Lemma scan_pixel_total (imageData : image) (minRegionSize x y : Z)
    (st : visited_set * list t) :
  is_Some (scan_pixel imageData minRegionSize x y st).
Proof.
  unfold scan_pixel. destruct st as [visited initialRegions].
  case_bool_decide; [done |].
  destruct (negb _); [done |].
  destruct (floodFill_total imageData x y visited) as [[region visited'] ->].
  simpl. by destruct (_ <=? _).
Qed.

(** The first pass returns for every raster. *)
Lemma initial_regions_total (imageData : image) (minRegionSize : Z) :
  is_Some (initial_regions imageData minRegionSize).
Proof.
  unfold initial_regions.
  destruct (for_each_total (seqZ 0 (height imageData))
              (fun y => for_each (seqZ 0 (width imageData))
                          (fun x => scan_pixel imageData minRegionSize x y)))
    with (st := ((∅, []) : visited_set * list t)) as [st ->]; [| done].
  intros y st. apply for_each_total. intros x st'. apply scan_pixel_total.
Qed.

(** Every region of the first pass is a bounding box. *)
Lemma initial_regions_box_ok (imageData : image) (minRegionSize : Z)
    (regions : list t) :
  initial_regions imageData minRegionSize = Some regions ->
  Forall box_ok regions.
Proof.
  unfold initial_regions. intros H.
  destruct (for_each _ _ _) as [st |] eqn:Hscan; [| done].
  injection H as <-.
  eapply (for_each_invariant (fun st => Forall box_ok st.2)) in Hscan;
    [done | | by constructor].
  intros y st1 st2 _ H1.
  apply (for_each_invariant (fun st => Forall box_ok st.2)); [| done].
  clear. intros x [visited regions] st' _ Hst. unfold scan_pixel.
  case_bool_decide; [by intros [= <-] |].
  destruct (negb _); [by intros [= <-] |].
  destruct (floodFill _ _ _ _) as [[region visited'] |] eqn:Hfill; [| done].
  apply floodFill_box in Hfill. simpl.
  destruct (_ <=? _); intros [= <-]; simpl in *; [| done].
  apply Forall_app. split; [done |]. by constructor.
Qed.

Lemma initial_regions_filter (imageData : image) (minRegionSize : Z) :
  exists blobs,
    filled_blobs imageData = Some blobs /\
    initial_regions imageData minRegionSize
    = Some (filter (large_enough minRegionSize) blobs).
Proof.
  set (R := fun (st1 st2 : visited_set * list t) =>
              st1.1 = st2.1 /\
              st1.2 = filter (large_enough minRegionSize) st2.2).
  assert (Hrel : option_Forall2 R
            (for_each (seqZ 0 (height imageData))
               (fun y => for_each (seqZ 0 (width imageData))
                           (fun x => scan_pixel imageData minRegionSize x y))
               (∅, []))
            (for_each (seqZ 0 (height imageData))
               (fun y => for_each (seqZ 0 (width imageData))
                           (fun x => fill_pixel imageData x y))
               (∅, []))).
  { apply for_each_related; [| done].
    intros y st1 st2 Hst. apply for_each_related; [| done].
    clear. intros x [v1 l1] [v2 l2] [Hv Hl]. simpl in Hv, Hl. subst v1 l1.
    unfold scan_pixel, fill_pixel.
    case_bool_decide; [by constructor |].
    destruct (negb _); [by constructor |].
    destruct (floodFill _ _ _ _) as [[region visited'] |]; simpl;
      [| constructor].
    destruct (Z.leb_spec minRegionSize (Z.of_nat (length (points region))));
      constructor; split; simpl; try done; rewrite filter_app, filter_cons.
    - rewrite decide_True by done. done.
    - rewrite decide_False by (unfold large_enough; lia).
      by rewrite filter_nil, app_nil_r. }
  unfold filled_blobs, initial_regions.
  destruct (initial_regions_total imageData minRegionSize) as [regions Hreg].
  unfold initial_regions in Hreg.
  destruct Hrel as [[v1 l1] [v2 l2] [Hv Hl] |]; simpl in *; [| done].
  exists l2. by rewrite Hl.
Qed.

(** *** The blobs of a raster *)

Lemma floodFill_inv (imageData : image) (x y : Z) (visited0 : visited_set)
    (res : t * visited_set) :
  floodFill imageData x y visited0 = Some res ->
  fill_inv imageData visited0 (x, y) [] res.2 res.1.
Proof.
  unfold floodFill. apply floodFill_loop_inv, fill_inv_start.
Qed.

Lemma scan_inv_start (imageData : image) :
  scan_inv imageData ((∅, []) : visited_set * list t).
Proof.
  split; simpl.
  - split; intros p; [intros Hp | intros n Hp]; by apply elem_of_empty in Hp.
  - intros p. split; [intros Hp; by apply elem_of_empty in Hp |].
    intros (blob & Hb & _). by apply elem_of_nil in Hb.
  - constructor.
  - constructor.
Qed.

Lemma fill_pixel_inv (imageData : image) (x y : Z)
    (st st' : visited_set * list t) :
  in_bounds imageData (x, y) ->
  scan_inv imageData st ->
  fill_pixel imageData x y st = Some st' ->
  scan_inv imageData st'.
Proof.
  intros Hb Hinv. unfold fill_pixel. destruct st as [visited blobs].
  case_bool_decide as Hvis; [by intros [= <-] |].
  destruct (isPixelNonTransparent (getPixel imageData x y)) eqn:Hop;
    cbn [negb]; [| by intros [= <-]].
  destruct (floodFill imageData x y visited) as [[region visited'] |] eqn:Hfill;
    simpl; [| done].
  intros [= <-]. destruct Hinv as [Hok Hv Hcomp Hdis]. simpl in *.
  apply opaque_test in Hop.
  destruct (floodFill_component _ _ _ _ _ _ Hfill Hb Hop Hvis Hok)
    as (Hc & Hnd & Hfresh & Hv' & _ & Hok').
  split; simpl.
  - done.
  - intros p. rewrite Hv', Hv. split.
    + intros [(blob & Hblob & Hp) | Hp].
      * exists blob. split; [| done]. apply elem_of_app. by left.
      * exists region. split; [| done]. apply elem_of_app. right.
        by apply list_elem_of_singleton.
    + intros (blob & Hblob & Hp). apply elem_of_app in Hblob as [Hblob | Hblob].
      * left. eauto.
      * apply list_elem_of_singleton in Hblob as ->. by right.
  - apply Forall_app. split; [done |]. by constructor.
  - rewrite bind_app, bind_singleton. apply NoDup_app.
    split; [done |]. split; [| done].
    intros p Hp Hp'. apply (Hfresh p Hp'). apply Hv.
    apply list_elem_of_bind in Hp as (blob & Hp & Hblob). eauto.
Qed.

Lemma fill_pixel_grows (imageData : image) (x y : Z)
    (st st' : visited_set * list t) :
  fill_pixel imageData x y st = Some st' ->
  (forall p, p ∈ st.1 -> p ∈ st'.1) /\
  (opaque imageData (x, y) -> (x, y) ∈ st'.1).
Proof.
  unfold fill_pixel. destruct st as [visited blobs].
  case_bool_decide as Hvis; [by intros [= <-] |].
  destruct (isPixelNonTransparent (getPixel imageData x y)) eqn:Hop;
    cbn [negb].
  - destruct (floodFill imageData x y visited) as [[region visited'] |] eqn:Hfill;
      simpl; [| done].
    intros [= <-]. apply floodFill_inv in Hfill as []. simpl in *. split.
    + intros p Hp. apply inv_visited0. by left.
    + intros _. apply inv_visited0.
      destruct inv_start0 as [? | [Hq | [? | Hno]]]; auto.
      * by apply elem_of_nil in Hq.
      * destruct Hno. by apply opaque_test.
  - intros [= <-]. split; [done |]. rewrite opaque_test. by rewrite Hop.
Qed.

(** After a loop every index of its range has what the body establishes
    for it, when no later run of the body undoes it. *)
Lemma for_each_covers {St : Type} (Q : Z -> St -> Prop) (l : list Z)
    (body : Z -> St -> option St) :
  (forall i st st', body i st = Some st' -> Q i st') ->
  (forall i j st st', Q j st -> body i st = Some st' -> Q j st') ->
  forall st st', for_each l body st = Some st' ->
    (forall j, Q j st -> Q j st') /\ (forall i, i ∈ l -> Q i st').
Proof.
  intros Hnow Hkeep. induction l as [| i l IH]; intros st st'; simpl.
  - intros [= <-]. split; [done |]. intros i Hi. by apply elem_of_nil in Hi.
  - destruct (body i st) as [st1 |] eqn:Hi; simpl; [| done].
    intros Hrest. destruct (IH _ _ Hrest) as [Hmono Hall]. split.
    + intros j Hj. eapply Hmono, Hkeep; eauto.
    + intros j Hj. apply elem_of_cons in Hj as [-> | Hj]; [| auto].
      eapply Hmono, Hnow; eauto.
Qed.

(** The blobs filled by the scan are the 8-connected components of the
    opaque pixels of the raster: each is a component, no pixel belongs to
    two of them, and every opaque pixel of the raster belongs to one. *)
Lemma filled_blobs_components (imageData : image) (blobs : list t) :
  filled_blobs imageData = Some blobs ->
  Forall (component imageData) blobs /\
  NoDup (blobs ≫= points) /\
  (forall p, in_bounds imageData p -> opaque imageData p ->
     exists blob, blob ∈ blobs /\ p ∈ points blob).
Proof.
  unfold filled_blobs. intros H.
  destruct (for_each _ _ _) as [st |] eqn:Hscan; [| done].
  injection H as <-.
  assert (Hinv : scan_inv imageData st).
  { eapply (for_each_invariant (scan_inv imageData)) in Hscan;
      [done | | apply scan_inv_start].
    intros y st1 st2 Hy H1.
    apply (for_each_invariant (scan_inv imageData)); [| done].
    intros x st3 st4 Hx H3. apply fill_pixel_inv; [| done].
    apply elem_of_seqZ in Hx, Hy. unfold in_bounds; simpl. lia. }
  destruct Hinv as [_ Hv Hcomp Hdis].
  split; [done |]. split; [done |].
  intros [x y] Hb Ho. apply Hv.
  pose (Qx := fun (y x : Z) (st : visited_set * list t) => (x, y) ∈ st.1).
  pose (Qy := fun (y : Z) (st : visited_set * list t) =>
                forall x, x ∈ seqZ 0 (width imageData) ->
                  opaque imageData (x, y) -> Qx y x st).
  assert (Hgrow : forall (l : list Z) y' st1 st2,
            for_each l (fun x => fill_pixel imageData x y') st1 = Some st2 ->
            forall p, p ∈ st1.1 -> p ∈ st2.1).
  { intros l y' st1 st2 Hl p Hp.
    eapply (for_each_invariant (fun st => p ∈ st.1)) in Hl; [done | | done].
    intros i st3 st4 _ H3 H4. by apply (fill_pixel_grows _ _ _ _ _ H4). }
  eapply (for_each_covers Qy) in Hscan as [_ Hall].
  - unfold in_bounds in Hb; simpl in Hb.
    apply (Hall y); [apply elem_of_seqZ; lia | apply elem_of_seqZ; lia | done].
  - intros y' st1 st2 Hrow x' Hx' Ho'.
    eapply (for_each_covers
              (fun x st => opaque imageData (x, y') -> Qx y' x st))
      in Hrow as [_ Hrow].
    + by apply Hrow.
    + intros i st3 st4 H4. apply (fill_pixel_grows _ _ _ _ _ H4).
    + intros i j st3 st4 Hj H4 Hoj.
      apply (fill_pixel_grows _ _ _ _ _ H4). by apply Hj.
  - intros y1 y2 st1 st2 Hq Hrow x' Hx' Ho'.
    eapply Hgrow; [exact Hrow |]. by apply Hq.
Qed.

(** *** The merge loop *)

Lemma within_spec (region1 region2 : t) (groupingDistance : Z) :
  within region1 region2 groupingDistance = true <->
  (surd_val (calculateRegionDistance region1 region2)
   <= IZR groupingDistance)%R.
Proof.
  unfold within, surd_val.
  apply sqrt_le_int_spec, calculateRegionDistance_radicand_nonneg.
Qed.

Lemma within_sym (region1 region2 : t) (groupingDistance : Z) :
  within region1 region2 groupingDistance
  = within region2 region1 groupingDistance.
Proof.
  unfold within. f_equal. f_equal.
  unfold calculateRegionDistance.
  destruct region1 as [p1 a1 b1 c1 d1], region2 as [p2 a2 b2 c2 d2]; simpl.
  replace (Z.min (Z.abs (b2 - a1)) (Z.abs (a2 - b1)))
    with (Z.min (Z.abs (b1 - a2)) (Z.abs (a1 - b2))) by lia.
  replace (Z.min (Z.abs (d2 - c1)) (Z.abs (c2 - d1)))
    with (Z.min (Z.abs (d1 - c2)) (Z.abs (c1 - d2))) by lia.
  cmp_cases; try lia; done.
Qed.

Lemma mergeRegions_box_ok (region1 region2 : t) :
  box_ok region1 -> box_ok region2 -> box_ok (mergeRegions region1 region2).
Proof. unfold box_ok, mergeRegions; simpl. lia. Qed.

(** A merged region is at most as far from a third one as either of its
    parts was. *)
Lemma within_merged_l (region1 region2 other : t) (groupingDistance : Z) :
  box_ok region1 -> box_ok region2 -> box_ok other ->
  within region1 other groupingDistance = true ->
  within (mergeRegions region1 region2) other groupingDistance = true.
Proof.
  intros H1 H2 Ho. unfold within.
  rewrite !calculateRegionDistance_gaps
    by auto using mergeRegions_box_ok.
  unfold sqrt_le_int, axis_gap, mergeRegions; simpl.
  destruct H1, H2, Ho.
  rewrite !andb_true_iff, !Z.leb_le. intros [Hg Hle]. split; [done |].
  eapply Z.le_trans; [| exact Hle].
  apply Z.add_le_mono; apply Z.square_le_mono_nonneg; lia.
Qed.

Lemma within_merged_r (region1 region2 other : t) (groupingDistance : Z) :
  box_ok region1 -> box_ok region2 -> box_ok other ->
  within region2 other groupingDistance = true ->
  within (mergeRegions region1 region2) other groupingDistance = true.
Proof.
  intros H1 H2 Ho. unfold within.
  rewrite !calculateRegionDistance_gaps
    by auto using mergeRegions_box_ok.
  unfold sqrt_le_int, axis_gap, mergeRegions; simpl.
  destruct H1, H2, Ho.
  rewrite !andb_true_iff, !Z.leb_le. intros [Hg Hle]. split; [done |].
  eapply Z.le_trans; [| exact Hle].
  apply Z.add_le_mono; apply Z.square_le_mono_nonneg; lia.
Qed.

Lemma merge_first_length region_i later groupingDistance mergedRegion rest :
  merge_first region_i later groupingDistance = Some (mergedRegion, rest) ->
  length later = S (length rest).
Proof.
  revert mergedRegion rest.
  induction later as [| region_j later IH]; intros mergedRegion rest; simpl;
    [done |].
  destruct (within _ _ _); [by intros [= _ <-] |].
  destruct (merge_first _ _ _) as [[m l] |]; simpl; [| done].
  intros [= _ <-]. simpl. f_equal. by eapply IH.
Qed.

Lemma merge_first_None region_i later groupingDistance :
  merge_first region_i later groupingDistance = None <->
  forall region_j, region_j ∈ later ->
    within region_i region_j groupingDistance = false.
Proof.
  induction later as [| region_j later IH]; simpl.
  - split; [| done]. intros _ r Hr. by apply elem_of_nil in Hr.
  - destruct (within region_i region_j groupingDistance) eqn:Hw.
    + split; [done |]. intros H. specialize (H region_j (list_elem_of_here _ _)).
      congruence.
    + destruct (merge_first _ _ _) as [[m l] |]; simpl.
      * split; [done |]. intros H.
        assert (Some (m, l) = None) as Hn; [| done].
        apply IH. intros r Hr. apply H. by right.
      * split; [| done]. intros _ r Hr.
        apply elem_of_cons in Hr as [-> | Hr]; [done |].
        by apply IH.
Qed.

Lemma merge_pass_length regions groupingDistance regions' :
  merge_pass regions groupingDistance = Some regions' ->
  length regions = S (length regions').
Proof.
  revert regions'.
  induction regions as [| region_i later IH]; intros regions'; simpl;
    [done |].
  destruct (merge_first _ _ _) as [[m l] |] eqn:Hfirst.
  - intros [= <-]. simpl. f_equal. by eapply merge_first_length.
  - destruct (merge_pass _ _) as [l |]; simpl; [| done].
    intros [= <-]. simpl. f_equal. by apply IH.
Qed.

(** A pass merges nothing exactly when no pair is within reach. *)
Lemma merge_pass_None regions groupingDistance :
  merge_pass regions groupingDistance = None <->
  settled regions groupingDistance.
Proof.
  unfold settled. induction regions as [| region_i later IH]; simpl.
  - split; [| done]. intros _ i j ri rj _ Hi. by rewrite lookup_nil in Hi.
  - destruct (merge_first _ _ _) as [[m l] |] eqn:Hfirst.
    + split; [done |]. intros H.
      assert (Some (m, l) = None) as Hn; [| done].
      rewrite <- Hfirst. apply merge_first_None. intros rj Hrj.
      apply list_elem_of_lookup in Hrj as [j Hj].
      apply (H 0%nat (S j)); [lia | done | done].
    + pose proof (proj1 (merge_first_None _ _ _) Hfirst) as Hnone.
      destruct (merge_pass later groupingDistance) as [l |]; simpl.
      * split; [done |]. intros H.
        assert (Some l = None) as Hn; [| done].
        apply IH. intros i j ri rj Hij Hi Hj.
        apply (H (S i) (S j)); [lia | done | done].
      * split; [| done]. intros _ [| i] [| j] ri rj Hij Hi Hj; try lia.
        -- simpl in Hi, Hj. injection Hi as <-. apply Hnone.
           apply list_elem_of_lookup. eauto.
        -- simpl in Hi, Hj. destruct IH as [IH _].
           apply (IH eq_refl i j); [lia | done | done].
Qed.

Lemma merge_loop_enough fuel : forall regions groupingDistance,
  (length regions < fuel)%nat ->
  exists merged,
    merge_loop fuel regions groupingDistance = Some merged /\
    settled merged groupingDistance.
Proof.
  induction fuel as [| fuel IH]; intros regions groupingDistance Hlen;
    [lia |].
  simpl. destruct (merge_pass _ _) as [regions' |] eqn:Hpass.
  - apply IH. apply merge_pass_length in Hpass. lia.
  - exists regions. split; [done |]. by apply merge_pass_None.
Qed.

Lemma merge_first_box_ok region_i later groupingDistance mergedRegion rest :
  box_ok region_i -> Forall box_ok later ->
  merge_first region_i later groupingDistance = Some (mergedRegion, rest) ->
  box_ok mergedRegion /\ Forall box_ok rest.
Proof.
  intros Hi Hlater. revert mergedRegion rest.
  induction Hlater as [| region_j later Hj Hlater IH];
    intros mergedRegion rest; simpl; [done |].
  destruct (within _ _ _).
  - intros [= <- <-]. split; [by apply mergeRegions_box_ok | done].
  - destruct (merge_first _ _ _) as [[m l] |]; simpl; [| done].
    intros [= <- <-]. destruct (IH m l eq_refl). split; [done |].
    by constructor.
Qed.

Lemma merge_pass_box_ok regions groupingDistance regions' :
  Forall box_ok regions ->
  merge_pass regions groupingDistance = Some regions' ->
  Forall box_ok regions'.
Proof.
  intros Hok. revert regions'.
  induction Hok as [| region_i later Hi Hlater IH]; intros regions'; simpl;
    [done |].
  destruct (merge_first _ _ _) as [[m l] |] eqn:Hfirst.
  - intros [= <-].
    destruct (merge_first_box_ok _ _ _ _ _ Hi Hlater Hfirst).
    by constructor.
  - destruct (merge_pass _ _) as [l |]; simpl; [| done].
    intros [= <-]. constructor; [done | by apply IH].
Qed.

(** Every region the merge loop measures or returns is a bounding box when
    the regions it starts from are, as those of the first pass are. *)
Lemma merge_loop_box_ok fuel : forall regions groupingDistance merged,
  Forall box_ok regions ->
  merge_loop fuel regions groupingDistance = Some merged ->
  Forall box_ok merged.
Proof.
  induction fuel as [| fuel IH]; intros regions groupingDistance merged Hok;
    simpl; [done |].
  destruct (merge_pass _ _) as [regions' |] eqn:Hpass.
  - apply IH. by eapply merge_pass_box_ok.
  - by intros [= <-].
Qed.

(** The merge loop returns, and what it returns has no pair of regions
    within reach; a list without such a pair comes back as it is. *)
Lemma merge_nearby_settled regions groupingDistance :
  (exists merged,
     merge_nearby regions groupingDistance = Some merged /\
     settled merged groupingDistance) /\
  (settled regions groupingDistance ->
   merge_nearby regions groupingDistance = Some regions).
Proof.
  split.
  - apply merge_loop_enough. lia.
  - intros Hs. unfold merge_nearby. simpl.
    by rewrite (proj2 (merge_pass_None _ _) Hs).
Qed.

(** *** Transitive merging *)

Lemma merge_nearby_single (region : t) (groupingDistance : Z) :
  merge_loop 2 [region] groupingDistance = Some [region].
Proof. reflexivity. Qed.

(** Three boxes of which two pairs at least are within reach end up as one
    region, whatever their order in the list. *)
Lemma merge_nearby_three (P Q R : t) (groupingDistance : Z) :
  box_ok P -> box_ok Q -> box_ok R ->
  (within P Q groupingDistance
   && (within P R groupingDistance || within Q R groupingDistance))
  || (within P R groupingDistance && within Q R groupingDistance) = true ->
  exists merged,
    merge_nearby [P; Q; R] groupingDistance = Some [merged] /\
    bounds_of_region merged = bounds_of_three P Q R.
Proof.
  intros HP HQ HR Hnear. unfold merge_nearby.
  change (length [P; Q; R]) with 3%nat.
  destruct (within P Q groupingDistance) eqn:HPQ.
  - assert (HPQR : within (mergeRegions P Q) R groupingDistance = true).
    { simpl in Hnear. apply orb_prop in Hnear as [Hnear | Hnear].
      - apply orb_prop in Hnear as [Hw | Hw];
          [by apply within_merged_l | by apply within_merged_r].
      - apply andb_prop in Hnear as [Hw _]. by apply within_merged_l. }
    exists (mergeRegions (mergeRegions P Q) R). split.
    + simpl. rewrite HPQ. simpl. by rewrite HPQR.
    + unfold bounds_of_region, bounds_of_three; simpl. f_equal; lia.
  - simpl in Hnear. apply andb_prop in Hnear as [HPR HQR].
    assert (HPRQ : within (mergeRegions P R) Q groupingDistance = true).
    { apply within_merged_r; [done.. |]. by rewrite within_sym. }
    exists (mergeRegions (mergeRegions P R) Q). split.
    + simpl. rewrite HPQ, HPR. simpl. by rewrite HPRQ.
    + unfold bounds_of_region, bounds_of_three; simpl. f_equal; lia.
Qed.

Lemma permutation_of_three {A : Type} (l : list A) (a b c : A) :
  l ≡ₚ [a; b; c] ->
  l = [a; b; c] \/ l = [a; c; b] \/ l = [b; a; c] \/
  l = [b; c; a] \/ l = [c; a; b] \/ l = [c; b; a].
Proof.
  intros H. apply Permutation_cons_inv_r in H as (k1 & k2 & -> & H).
  apply Permutation_length_2_inv in H.
  destruct k1 as [| x [| y [| z k1]]]; simpl in *;
    destruct H as [H | H]; simplify_eq; auto 10;
    destruct k1; simplify_eq.
Qed.

(** C2. Merging is transitive: when the first pass retains three blobs A,
    B and C with B within the grouping distance of both A and C, the
    detector returns one region, numbered 1, whose bounds are the union of
    the three bounding boxes, also when A and C are farther apart than the
    grouping distance. The merge loop always ends, it ends with no two
    regions within the grouping distance, and a list without such a pair
    is returned as it is. *)
Theorem merging_is_transitive :
  (forall (imageData : image) (minRegionSize groupingDistance : Z)
          (regions : list t) (A B C : t),
     initial_regions imageData minRegionSize = Some regions ->
     regions ≡ₚ [A; B; C] ->
     (surd_val (calculateRegionDistance A B) <= IZR groupingDistance)%R ->
     (surd_val (calculateRegionDistance B C) <= IZR groupingDistance)%R ->
     detectRegions imageData minRegionSize groupingDistance
     = Some [Detected 1 (bounds_of_three A B C) []]) /\
  (forall (regions : list t) (groupingDistance : Z),
     exists merged,
       merge_nearby regions groupingDistance = Some merged /\
       forall i j region_i region_j,
         (i < j)%nat ->
         merged !! i = Some region_i -> merged !! j = Some region_j ->
         (IZR groupingDistance
          < surd_val (calculateRegionDistance region_i region_j))%R) /\
  (forall (regions : list t) (groupingDistance : Z),
     (forall i j region_i region_j,
        (i < j)%nat ->
        regions !! i = Some region_i -> regions !! j = Some region_j ->
        (IZR groupingDistance
         < surd_val (calculateRegionDistance region_i region_j))%R) ->
     merge_nearby regions groupingDistance = Some regions).
Proof.
  assert (Hfar : forall region1 region2 groupingDistance,
            within region1 region2 groupingDistance = false <->
            (IZR groupingDistance
             < surd_val (calculateRegionDistance region1 region2))%R).
  { intros region1 region2 groupingDistance.
    pose proof (within_spec region1 region2 groupingDistance) as Hspec.
    destruct (within _ _ _); split; try done.
    - intros Hlt. assert (true = true) as Ht by done.
      apply Hspec in Ht. lra.
    - intros _. apply Rnot_le_lt. intros Hle. by apply Hspec in Hle. }
  split; [| split].
  - intros imageData minRegionSize groupingDistance regions A B C
      Hinit Hperm HAB HBC.
    apply within_spec in HAB, HBC.
    pose proof (initial_regions_box_ok _ _ _ Hinit) as Hok.
    rewrite Hperm in Hok.
    apply Forall_cons in Hok as [HA Hok].
    apply Forall_cons in Hok as [HB Hok].
    apply Forall_cons in Hok as [HC _].
    pose proof HAB as HBA. rewrite within_sym in HBA.
    pose proof HBC as HCB. rewrite within_sym in HCB.
    assert (Hmerged : exists merged,
              merge_nearby regions groupingDistance = Some [merged] /\
              bounds_of_region merged = bounds_of_three A B C).
    { apply permutation_of_three in Hperm
        as [-> | [-> | [-> | [-> | [-> | ->]]]]].
      - apply merge_nearby_three; [done.. |].
        rewrite HAB, HBC. by rewrite orb_true_r.
      - destruct (merge_nearby_three A C B groupingDistance)
          as (merged & Hm & Hb); [done.. | |].
        + rewrite HAB, HCB. by rewrite andb_true_r, orb_true_r.
        + exists merged. split; [done |]. rewrite Hb.
          unfold bounds_of_three. f_equal; lia.
      - destruct (merge_nearby_three B A C groupingDistance)
          as (merged & Hm & Hb); [done.. | |].
        + rewrite HBA, HBC. by rewrite orb_true_l.
        + exists merged. split; [done |]. rewrite Hb.
          unfold bounds_of_three. f_equal; lia.
      - destruct (merge_nearby_three B C A groupingDistance)
          as (merged & Hm & Hb); [done.. | |].
        + rewrite HBC, HBA. done.
        + exists merged. split; [done |]. rewrite Hb.
          unfold bounds_of_three. f_equal; lia.
      - destruct (merge_nearby_three C A B groupingDistance)
          as (merged & Hm & Hb); [done.. | |].
        + rewrite HCB, HAB. by rewrite andb_true_r, orb_true_r.
        + exists merged. split; [done |]. rewrite Hb.
          unfold bounds_of_three. f_equal; lia.
      - destruct (merge_nearby_three C B A groupingDistance)
          as (merged & Hm & Hb); [done.. | |].
        + rewrite HCB, HBA. by rewrite orb_true_r.
        + exists merged. split; [done |]. rewrite Hb.
          unfold bounds_of_three. f_equal; lia. }
    destruct Hmerged as (merged & Hm & Hb).
    unfold detectRegions. rewrite Hinit. simpl. rewrite Hm. simpl.
    unfold to_detected. simpl. fold (bounds_of_region merged).
    by rewrite Hb.
  - intros regions groupingDistance.
    destruct (proj1 (merge_nearby_settled regions groupingDistance))
      as (merged & Hm & Hs).
    exists merged. split; [done |]. intros i j ri rj Hij Hi Hj.
    apply Hfar. by eapply Hs.
  - intros regions groupingDistance Hs.
    apply merge_nearby_settled. intros i j ri rj Hij Hi Hj.
    apply Hfar. by eapply Hs.
Qed.

(** Two components with a pixel in common hold the same pixels. *)
Lemma component_closed (imageData : image) (blob1 blob2 : t) (p q : Z * Z) :
  component imageData blob1 -> component imageData blob2 ->
  p ∈ points blob1 -> p ∈ points blob2 ->
  q ∈ points blob1 -> q ∈ points blob2.
Proof.
  intros H1 H2 Hp1 Hp2 Hq1.
  pose proof (comp_linked _ _ H1 p q Hp1 Hq1) as Hpq.
  clear Hp1 Hq1. induction Hpq as [| a b c [Hb Hab] _ IH]; [done |].
  apply IH. destruct (comp_opaque _ _ H1 b Hb) as [Ho Hin].
  by apply (comp_maximal _ _ H2 a b).
Qed.

Lemma component_same_pixels (imageData : image) (blob1 blob2 : t)
    (p : Z * Z) :
  component imageData blob1 -> component imageData blob2 ->
  p ∈ points blob1 -> p ∈ points blob2 ->
  same_pixels blob1 blob2.
Proof.
  intros H1 H2 Hp1 Hp2 q. split; by apply (component_closed imageData _ _ p).
Qed.

(** The box of a component is fixed by its pixels. *)
Lemma component_same_box (imageData : image) (blob1 blob2 : t) :
  component imageData blob1 -> component imageData blob2 ->
  same_pixels blob1 blob2 ->
  bounds_of_region blob1 = bounds_of_region blob2.
Proof.
  intros H1 H2 Hsame.
  destruct (comp_tight _ _ H1)
    as ((a1 & Ha1 & Ea1) & (b1 & Hb1 & Eb1) & (c1 & Hc1 & Ec1) & (d1 & Hd1 & Ed1)).
  destruct (comp_tight _ _ H2)
    as ((a2 & Ha2 & Ea2) & (b2 & Hb2 & Eb2) & (c2 & Hc2 & Ec2) & (d2 & Hd2 & Ed2)).
  pose proof (fun p Hp => comp_box _ _ H1 p (proj2 (Hsame p) Hp)) as Hbox1.
  pose proof (fun p Hp => comp_box _ _ H2 p (proj1 (Hsame p) Hp)) as Hbox2.
  pose proof (Hbox1 a2 Ha2). pose proof (Hbox1 b2 Hb2).
  pose proof (Hbox1 c2 Hc2). pose proof (Hbox1 d2 Hd2).
  pose proof (Hbox2 a1 Ha1). pose proof (Hbox2 b1 Hb1).
  pose proof (Hbox2 c1 Hc1). pose proof (Hbox2 d1 Hd1).
  unfold bounds_of_region. f_equal; lia.
Qed.

Lemma NoDup_bind_elem (blobs : list t) (blob : t) :
  NoDup (blobs ≫= points) -> blob ∈ blobs -> NoDup (points blob).
Proof.
  induction blobs as [| blob' blobs IH]; intros Hnd Hin;
    [by apply elem_of_nil in Hin |].
  rewrite bind_cons in Hnd. apply NoDup_app in Hnd as (Hhere & _ & Hrest).
  apply elem_of_cons in Hin as [-> | Hin]; auto.
Qed.

(** Every 8-connected component of opaque pixels is one of the blobs the
    scan fills. *)
Lemma component_found (imageData : image) (blobs : list t) (blob : t) :
  filled_blobs imageData = Some blobs ->
  component imageData blob ->
  exists found,
    found ∈ blobs /\ same_pixels found blob /\
    bounds_of_region found = bounds_of_region blob.
Proof.
  intros Hblobs Hblob.
  destruct (filled_blobs_components _ _ Hblobs) as (Hcomp & _ & Hall).
  destruct (points blob) as [| p pixels] eqn:Hpoints;
    [by destruct (comp_nonempty _ _ Hblob) |].
  assert (Hp : p ∈ points blob) by (rewrite Hpoints; by left).
  destruct (comp_opaque _ _ Hblob p Hp) as [Ho Hin].
  destruct (Hall p Hin Ho) as (found & Hfound & Hpf).
  assert (Hc : component imageData found)
    by (by eapply Forall_forall in Hcomp).
  assert (Hsame : same_pixels found blob)
    by (by apply (component_same_pixels imageData _ _ p)).
  exists found. split; [done |]. split; [done |].
  by apply (component_same_box imageData).
Qed.

(** C4. The blobs that the scan flood-fills are the 8-connected
    components of the opaque pixels of the raster: each blob is one, no
    pixel belongs to two blobs, and every such component is among them,
    with its pixels and its bounding box. The first pass keeps, in scan
    order, exactly the blobs with at least [minRegionSize] pixels, so that
    an 8-connected component of opaque pixels is retained if and only if
    it has at least [minRegionSize] pixels; only the retained blobs reach
    the merge pass. A raster with no opaque pixel gives the empty region
    list. *)
Theorem blobs_retained_by_size :
  (forall (imageData : image) (minRegionSize groupingDistance : Z),
     exists blobs merged,
       filled_blobs imageData = Some blobs /\
       Forall (component imageData) blobs /\
       NoDup (blobs ≫= points) /\
       (forall p, in_bounds imageData p -> opaque imageData p ->
          exists blob, blob ∈ blobs /\ p ∈ points blob) /\
       (forall blob, component imageData blob ->
          exists found,
            found ∈ blobs /\ same_pixels found blob /\
            bounds_of_region found = bounds_of_region blob) /\
       initial_regions imageData minRegionSize
       = Some (filter (large_enough minRegionSize) blobs) /\
       (forall blob,
          blob ∈ filter (large_enough minRegionSize) blobs <->
          blob ∈ blobs /\
          minRegionSize <= Z.of_nat (length (points blob))) /\
       (forall blob, component imageData blob -> NoDup (points blob) ->
          (exists kept,
             kept ∈ filter (large_enough minRegionSize) blobs /\
             same_pixels kept blob) <->
          minRegionSize <= Z.of_nat (length (points blob))) /\
       merge_nearby (filter (large_enough minRegionSize) blobs)
         groupingDistance = Some merged /\
       detectRegions imageData minRegionSize groupingDistance
       = Some (to_detected merged)) /\
  (forall (imageData : image) (minRegionSize groupingDistance : Z),
     (forall p, in_bounds imageData p -> ~ opaque imageData p) ->
     detectRegions imageData minRegionSize groupingDistance = Some []).
Proof.
  split.
  - intros imageData minRegionSize groupingDistance.
    destruct (initial_regions_filter imageData minRegionSize)
      as (blobs & Hblobs & Hinit).
    destruct (proj1 (merge_nearby_settled
                       (filter (large_enough minRegionSize) blobs)
                       groupingDistance)) as (merged & Hm & _).
    destruct (filled_blobs_components _ _ Hblobs) as (Hcomp & Hdis & Hall).
    assert (Hlength : forall found blob,
              found ∈ blobs -> NoDup (points blob) -> same_pixels found blob ->
              length (points found) = length (points blob)).
    { intros found blob Hfound Hnd Hsame. apply Permutation_length.
      apply NoDup_Permutation; [by eapply NoDup_bind_elem | done | done]. }
    exists blobs, merged. do 4 (split; [done |]).
    split; [intros blob; by apply component_found |].
    split; [done |].
    split; [| split; [| split; [done |]]].
    + intros blob. rewrite list_elem_of_filter. unfold large_enough. tauto.
    + intros blob Hblob Hnd. split.
      * intros (kept & Hkept & Hsame).
        apply list_elem_of_filter in Hkept as [Hlarge Hkept].
        unfold large_enough in Hlarge.
        by rewrite <- (Hlength kept blob).
      * intros Hlarge.
        destruct (component_found _ _ _ Hblobs Hblob)
          as (found & Hfound & Hsame & _).
        exists found. split; [| done].
        apply list_elem_of_filter. split; [| done].
        unfold large_enough. by rewrite (Hlength found blob).
    + unfold detectRegions. rewrite Hinit. simpl. by rewrite Hm.
  - intros imageData minRegionSize groupingDistance Hclear.
    unfold detectRegions, initial_regions.
    rewrite for_each_unchanged; [done |].
    intros y Hy. apply for_each_unchanged. intros x Hx.
    unfold scan_pixel. case_bool_decide; [done |].
    destruct (isPixelNonTransparent (getPixel imageData x y)) eqn:Hop;
      [| done].
    destruct (Hclear (x, y)); [| by apply opaque_test].
    apply elem_of_seqZ in Hx, Hy. unfold in_bounds; simpl. lia.
Qed.

(** *** The detector on small rasters *)

(** Pixels that touch only by a corner belong to one blob. *)
Example diagonal_pixels_one_blob :
  initial_regions
    (image_of_alpha 4 3 [255; 255; 0; 0;
                         0; 0; 255; 0;
                         0; 0; 0; 255]) 1
  = Some [Region [(0, 0); (1, 0); (2, 1); (3, 2)] 0 3 0 2].
Proof. by vm_compute. Qed.

(** Two blobs of two pixels whose boxes are 4 apart: kept apart at grouping
    distance 3, merged at 4, and dropped when three pixels are asked for. *)
Example two_blobs_by_distance_and_size :
  let raster := image_of_alpha 7 1 [255; 255; 0; 0; 0; 255; 255] in
  detectRegions raster 2 3 = Some [Detected 1 (Bounds 0 0 1 0) [];
                                   Detected 2 (Bounds 5 0 6 0) []] /\
  detectRegions raster 2 4 = Some [Detected 1 (Bounds 0 0 6 0) []] /\
  detectRegions raster 3 4 = Some [].
Proof. by vm_compute. Qed.

End Region.

Lemma region_distance_axis_gaps_witness :
  Surd.surd_val
    (Region.calculateRegionDistance (Region.Region [] 0 2 0 2)
       (Region.Region [] 5 9 6 8))
  = sqrt (IZR 3 * IZR 3 + IZR 4 * IZR 4).
Proof.
  apply (Region.region_distance_axis_gaps (Region.Region [] 0 2 0 2)
           (Region.Region [] 5 9 6 8)); split; simpl; lia.
Defined.

Lemma merging_is_transitive_witness :
  Region.detectRegions (Region.image_of_alpha 7 1 [255; 0; 0; 255; 0; 0; 255]) 1 3
  = Some [Region.Detected 1 (Region.Bounds 0 0 6 0) []].
Proof.
  apply (proj1 Region.merging_is_transitive
           (Region.image_of_alpha 7 1 [255; 0; 0; 255; 0; 0; 255]) 1 3
           [Region.Region [(0, 0)] 0 0 0 0; Region.Region [(3, 0)] 3 3 0 0;
            Region.Region [(6, 0)] 6 6 0 0]
           (Region.Region [(0, 0)] 0 0 0 0) (Region.Region [(3, 0)] 3 3 0 0)
           (Region.Region [(6, 0)] 6 6 0 0)).
  - by vm_compute.
  - done.
  - apply Region.within_spec. by vm_compute.
  - apply Region.within_spec. by vm_compute.
Defined.

Lemma blobs_retained_by_size_witness :
  (exists retained kept,
     Region.initial_regions
       (Region.image_of_alpha 2 2 [255; 0; 0; 255]) 2 = Some retained /\
     kept ∈ retained /\
     forall p, p ∈ Region.points kept <-> p ∈ [(0, 0); (1, 1)]) /\
  Region.detectRegions (Region.image_of_alpha 2 2 [0; 0; 0; 0]) 1 3 = Some [].
Proof.
  split.
  - destruct (proj1 Region.blobs_retained_by_size
                (Region.image_of_alpha 2 2 [255; 0; 0; 255]) 2 3)
      as (blobs & merged & _ & _ & _ & _ & _ & Hinit & _ & Hkept & _).
    assert (Hblob : Region.component
                      (Region.image_of_alpha 2 2 [255; 0; 0; 255])
                      (Region.Region [(0, 0); (1, 1)] 0 1 0 1)).
    { split; simpl.
      - done.
      - intros p Hp.
        repeat (apply elem_of_cons in Hp as [-> | Hp];
                [split; [exists 255; by vm_compute | by vm_compute] |]).
        by apply elem_of_nil in Hp.
      - assert (Hstep : forall p q : Z * Z,
                  p <> q -> p ∈ [(0, 0); (1, 1)] -> q ∈ [(0, 0); (1, 1)] ->
                  Region.linked [(0, 0); (1, 1)] p q).
        { intros p q Hne Hp Hq. apply rtc_once. split; [done |].
          split; [done |].
          repeat (apply elem_of_cons in Hp as [-> | Hp]);
            repeat (apply elem_of_cons in Hq as [-> | Hq]);
            try (by apply elem_of_nil in Hp); try (by apply elem_of_nil in Hq);
            simpl; lia. }
        intros p q Hp Hq. destruct (decide (p = q)) as [-> | Hne];
          [apply rtc_refl | by apply Hstep].
      - intros p [x y] _ _ [Hx Hy] (alpha & _ & Halpha & Hpos). simpl in *.
        assert (Hcases : (x = 0 \/ x = 1) /\ (y = 0 \/ y = 1)) by lia.
        destruct Hcases as [[-> | ->] [-> | ->]]; vm_compute in Halpha;
          injection Halpha as <-;
          first [lia | apply (bool_decide_unpack _); by vm_compute].
      - intros p Hp.
        repeat (apply elem_of_cons in Hp as [-> | Hp]; [simpl; lia |]).
        by apply elem_of_nil in Hp.
      - repeat split; [exists (0, 0) | exists (1, 1) | exists (0, 0)
                      | exists (1, 1)];
          (split; [apply (bool_decide_unpack _); by vm_compute | done]). }
    assert (Hnodup : NoDup [(0, 0); (1, 1)])
      by (apply (bool_decide_unpack _); by vm_compute).
    destruct (proj2 (Hkept _ Hblob Hnodup)) as (kept & Hin & Hsame);
      [simpl; lia |].
    exists (filter (Region.large_enough 2) blobs), kept.
    split; [done |]. split; [done | exact Hsame].
  - apply (proj2 Region.blobs_retained_by_size
             (Region.image_of_alpha 2 2 [0; 0; 0; 0]) 1 3).
    intros [x y] [Hx Hy] (alpha & _ & Halpha & Hpos). simpl in *.
    assert (Hcases : (x = 0 \/ x = 1) /\ (y = 0 \/ y = 1)) by lia.
    destruct Hcases as [[-> | ->] [-> | ->]]; vm_compute in Halpha;
      injection Halpha as <-; lia.
Defined.
